(** * Commit-Message-Classifier: the classification core of [backend/main.py]

    A shallow embedding of [COMMIT_TYPES], [extract_scope],
    [calculate_confidence], [classify_commit], [generate_suggestions],
    [classify_message] and [classify_batch], with the fragment of Python's
    [str] and [re] they rely on, followed by the properties of the
    specification.

    Conventions of the embedding.
    - A Python [str] is a list of characters; a character is a code point
      below 256 (Rocq's [ascii]).  On that range [isspace], [lower],
      [isupper], [\s], [.] and case-insensitive literals are the ones of
      CPython 3.  (Beyond it, [re.IGNORECASE] also lets U+0130 and U+0131
      stand for [i] and U+017F for [s]; those code points are outside the
      model.)
    - A Python [float] is an IEEE 754 binary64 number ([PrimFloat.float]),
      with Python's [min], [max] and comparisons.
    - An exception is a value of [exn]; code that can raise returns a
      [result]. *)

From Stdlib Require Import List Ascii String Bool Arith Lia.
From Stdlib Require Import Floats.PrimFloat.
Import ListNotations.

Set Warnings "-inexact-float".

(* ===================================================================== *)
(** ** Python strings *)
(* ===================================================================== *)

Module PyStr.

Definition str := list ascii.

(** A string literal. *)
Definition py (s : string) : str := list_ascii_of_string s.

Definition ord (c : ascii) : nat := nat_of_ascii c.

(** [c.isspace()], which is also the class [\s] of [re] and the set that
    [strip()] and [split()] remove: TAB..CR, FS..US, space, NEL, NBSP. *)
Definition isspace (c : ascii) : bool :=
  let n := ord c in
  ((9 <=? n) && (n <=? 13)) || ((28 <=? n) && (n <=? 32))
  || (n =? 133) || (n =? 160).

(** [c.isupper()]: A..Z and the Latin-1 capitals (all of 192..222 but the
    multiplication sign 215). *)
Definition isupper (c : ascii) : bool :=
  let n := ord c in
  ((65 <=? n) && (n <=? 90))
  || ((192 <=? n) && (n <=? 222) && negb (n =? 215)).

Definition lower_char (c : ascii) : ascii :=
  if isupper c then ascii_of_nat (ord c + 32) else c.

(** [s.lower()] *)
Definition lower (s : str) : str := map lower_char s.

Fixpoint lstrip (s : str) : str :=
  match s with
  | c :: t => if isspace c then lstrip t else s
  | [] => []
  end.

Definition rstrip (s : str) : str := rev (lstrip (rev s)).

(** [s.strip()] *)
Definition strip (s : str) : str := rstrip (lstrip s).

(** [s.startswith(p)] *)
Fixpoint startswith (s p : str) {struct p} : bool :=
  match p, s with
  | [], _ => true
  | a :: p', b :: s' => Ascii.eqb a b && startswith s' p'
  | _ :: _, [] => false
  end.

(** [kw in s] *)
Fixpoint contains (s kw : str) : bool :=
  startswith s kw
  || match s with
     | [] => false
     | _ :: t => contains t kw
     end.

(** [s.split()]: the maximal runs of non-whitespace characters.  [w] is the
    run being read, most recent character first. *)
Fixpoint split_from (s w : str) : list str :=
  match s with
  | [] => match w with [] => [] | _ :: _ => [rev w] end
  | c :: t =>
      if isspace c
      then match w with
           | [] => split_from t []
           | _ :: _ => rev w :: split_from t []
           end
      else split_from t (c :: w)
  end.

Definition split (s : str) : list str := split_from s [].

End PyStr.
Import PyStr.

(* ===================================================================== *)
(** ** Python floats *)
(* ===================================================================== *)

Module PyFloat.

Open Scope float_scope.

(** The conversion of a (small) [int] to [float]; exact below 2^53. *)
Fixpoint of_nat (n : nat) : float :=
  match n with
  | O => 0
  | S m => of_nat m + 1
  end.

(** [min(a, b)] keeps [a] unless [b < a]; [max(a, b)] keeps [a] unless
    [b > a]. *)
Definition min (a b : float) : float := if b <? a then b else a.
Definition max (a b : float) : float := if a <? b then b else a.

End PyFloat.

(* ===================================================================== *)
(** ** Exceptions *)
(* ===================================================================== *)

(** The detail of an [HTTPException] is a literal text or [str(e)] for a
    caught exception [e]; the text that [str] renders is left to the
    framework. *)
Inductive exn : Type :=
| HTTPException (status_code : nat) (detail : detail)
| KeyError (key : string)
| IndexError
with detail : Type :=
| Text (s : string)
| StrOf (e : exn).

Inductive result (A : Type) : Type :=
| Ok (a : A)
| Raise (e : exn).
Arguments Ok {A} a.
Arguments Raise {A} e.

Definition bind {A B : Type} (m : result A) (f : A -> result B) : result B :=
  match m with
  | Ok a => f a
  | Raise e => Raise e
  end.

Notation "x <- m ;; k" := (bind m (fun x => k))
  (at level 61, m at next level, right associativity).

(* ===================================================================== *)
(** ** The fragment of [re] *)
(* ===================================================================== *)

Module Re.

(** One-character items.  [Lit] is a literal under [re.IGNORECASE]; the
    negated sets of the program, [[^)]] and [[^:]], exclude one uncased
    character, on which the flag has no effect. *)
Inductive cclass : Type :=
| Lit (c : ascii)
| NotLit (c : ascii)
| Space
| Dot.

Definition accepts (cl : cclass) (c : ascii) : bool :=
  match cl with
  | Lit p => Ascii.eqb (lower_char c) (lower_char p)
  | NotLit p => negb (Ascii.eqb c p)
  | Space => isspace c
  | Dot => negb (Ascii.eqb c "010"%char)
  end.

(** The program repeats single-character items only. *)
Inductive regex : Type :=
| Eps
| Chr (cl : cclass)
| Seq (r1 r2 : regex)
| Alt (r1 r2 : regex)
| Opt (r : regex)
| Star (cl : cclass)
| Plus (cl : cclass).

(** Backtracking matcher: [run r s k] consumes a prefix of [s] with [r] and
    hands the rest to the continuation [k], greedy choice first. *)
Fixpoint star (cl : cclass) (s : str) (k : str -> bool) : bool :=
  match s with
  | c :: t => (accepts cl c && star cl t k) || k s
  | [] => k []
  end.

Fixpoint run (r : regex) (s : str) (k : str -> bool) : bool :=
  match r with
  | Eps => k s
  | Chr cl =>
      match s with
      | c :: t => accepts cl c && k t
      | [] => false
      end
  | Seq r1 r2 => run r1 s (fun s' => run r2 s' k)
  | Alt r1 r2 => run r1 s k || run r2 s k
  | Opt r1 => run r1 s k || k s
  | Star cl => star cl s k
  | Plus cl =>
      match s with
      | c :: t => accepts cl c && star cl t k
      | [] => false
      end
  end.

(** [re.match(r, s, re.IGNORECASE)] is not [None]: some prefix of [s]
    matches.  [re.match] anchors at the start, which is all the leading [^]
    of the patterns asks for. *)
Definition re_match (r : regex) (s : str) : bool := run r s (fun _ => true).

(** The literal text [w]. *)
Fixpoint lits (w : str) : regex :=
  match w with
  | [] => Eps
  | c :: t => Seq (Chr (Lit c)) (lits t)
  end.

(** The longest prefix of [s] made of characters of [cl], and the rest. *)
Fixpoint span (cl : cclass) (s : str) : str * str :=
  match s with
  | c :: t =>
      if accepts cl c
      then let (a, b) := span cl t in (c :: a, b)
      else ([], s)
  | [] => ([], [])
  end.

(** What the words of a pattern are. *)
Inductive Lang : regex -> str -> Prop :=
| LEps : Lang Eps []
| LChr cl c : accepts cl c = true -> Lang (Chr cl) [c]
| LSeq r1 r2 u v : Lang r1 u -> Lang r2 v -> Lang (Seq r1 r2) (u ++ v)
| LAltL r1 r2 u : Lang r1 u -> Lang (Alt r1 r2) u
| LAltR r1 r2 u : Lang r2 u -> Lang (Alt r1 r2) u
| LOptNone r : Lang (Opt r) []
| LOptSome r u : Lang r u -> Lang (Opt r) u
| LStar cl u : forallb (accepts cl) u = true -> Lang (Star cl) u
| LPlus cl c u :
    accepts cl c = true -> forallb (accepts cl) u = true ->
    Lang (Plus cl) (c :: u).

End Re.
Import Re.

(* ===================================================================== *)
(** ** [backend/main.py] *)
(* ===================================================================== *)

(** An entry of [COMMIT_TYPES]. *)
Module Info.
Record t : Type := mk {
  pattern : regex;
  description : string;
  keywords : list str
}.
End Info.

(** The dictionary returned by [classify_commit]. *)
Module Cls.
Record t : Type := mk {
  type : string;
  scope : option str;
  description : str;
  confidence : float
}.
End Cls.

(** The response model [ClassificationResult], also the shape of a
    successful record of [classify_batch]. *)
Module ClassificationResult.
Record t : Type := mk {
  message : str;
  type : string;
  scope : option str;
  description : str;
  confidence : float;
  timestamp : str;
  suggestions : list str
}.
End ClassificationResult.

(** [\([^)]+\)], the parenthesised scope. *)
Definition scope_re : regex :=
  Seq (Chr (Lit "("%char)) (Seq (Plus (NotLit ")"%char)) (Chr (Lit ")"%char))).

(** [(\([^)]+\))?:\s*.+], what follows the type in every pattern. *)
Definition header_tail : regex :=
  Seq (Opt scope_re) (Seq (Chr (Lit ":"%char)) (Seq (Star Space) (Plus Dot))).

(** [^<ty>(\([^)]+\))?:\s*.+] *)
Definition conventional (ty : string) : regex := Seq (lits (py ty)) header_tail.

(** The dictionary [COMMIT_TYPES], in insertion order, which is the order
    in which [.items()] yields its entries.  The pattern of the entry of
    key [k] is the literal [^k(\([^)]+\))?:\s*.+] in the source. *)
Definition COMMIT_TYPES : list (string * Info.t) :=
  [ ("feat"%string,
      Info.mk (conventional "feat") "A new feature"
        [py "add"; py "new"; py "implement"; py "create"; py "introduce"]);
    ("fix"%string,
      Info.mk (conventional "fix") "A bug fix"
        [py "fix"; py "bug"; py "resolve"; py "correct"; py "repair";
         py "patch"]);
    ("docs"%string,
      Info.mk (conventional "docs") "Documentation changes"
        [py "doc"; py "documentation"; py "readme"; py "comment";
         py "guide"]);
    ("style"%string,
      Info.mk (conventional "style")
        "Code style changes (formatting, semicolons, etc.)"
        [py "style"; py "format"; py "indent"; py "whitespace"; py "lint"]);
    ("refactor"%string,
      Info.mk (conventional "refactor") "Code refactoring"
        [py "refactor"; py "restructure"; py "optimize"; py "improve";
         py "clean"]);
    ("perf"%string,
      Info.mk (conventional "perf") "Performance improvements"
        [py "performance"; py "perf"; py "speed"; py "optimize";
         py "faster"]);
    ("test"%string,
      Info.mk (conventional "test") "Adding or updating tests"
        [py "test"; py "testing"; py "spec"; py "coverage"; py "unit";
         py "integration"]);
    ("build"%string,
      Info.mk (conventional "build") "Build system or dependency changes"
        [py "build"; py "dependency"; py "deps"; py "package"; py "npm";
         py "pip"]);
    ("ci"%string,
      Info.mk (conventional "ci") "CI/CD configuration changes"
        [py "ci"; py "cd"; py "pipeline"; py "jenkins"; py "travis";
         py "github actions"]);
    ("chore"%string,
      Info.mk (conventional "chore")
        "Other changes that don't modify src or test files"
        [py "chore"; py "update"; py "upgrade"; py "maintenance";
         py "config"]);
    ("revert"%string,
      Info.mk (conventional "revert") "Reverts a previous commit"
        [py "revert"; py "undo"; py "rollback"]) ].

(** [d[key]] *)
Fixpoint getitem (d : list (string * Info.t)) (key : string) : result Info.t :=
  match d with
  | [] => Raise (KeyError key)
  | (k, v) :: rest => if String.eqb k key then Ok v else getitem rest key
  end.

(** [l[i]] *)
Definition getindex (l : list str) (i : nat) : result str :=
  match nth_error l i with
  | Some x => Ok x
  | None => Raise IndexError
  end.

(** [sum(1 for kw in keywords if kw in message_lower)] *)
Definition keyword_matches (keywords : list str) (message_lower : str) : nat :=
  List.length (filter (fun kw => contains message_lower kw) keywords).

(** A match of [\(([^)]+)\)] that starts at the head of [s], as its group 1.
    The greedy [[^)]+] runs up to the first [)] or to the end of the
    string; a shorter run is never followed by [)]. *)
Definition paren_group_at (s : str) : option str :=
  match s with
  | c :: t =>
      if accepts (Lit "("%char) c
      then match span (NotLit ")"%char) t with
           | ((_ :: _) as g, _ :: _) => Some g
           | _ => None
           end
      else None
  | [] => None
  end.

(** [re.search(r'\(([^)]+)\)', s)]: the leftmost match. *)
Fixpoint search_paren_group (s : str) : option str :=
  match paren_group_at s with
  | Some g => Some g
  | None =>
      match s with
      | _ :: t => search_paren_group t
      | [] => None
      end
  end.

Definition extract_scope (message : str) : option str :=
  search_paren_group message.

(** [re.sub(r'^[^:]+:\s*', '', s)]: the pattern can only match at the start
    of [s], where [[^:]+] runs up to the first colon and [\s*] takes all the
    whitespace after it. *)
Definition sub_header (s : str) : str :=
  match span (NotLit ":"%char) s with
  | (_ :: _, _ :: t) => snd (span Space t)
  | _ => s
  end.

Definition calculate_confidence (message : str) (commit_type : string)
  : result float :=
  let message_lower := lower message in
  info <- getitem COMMIT_TYPES commit_type ;;
  if re_match (Info.pattern info) message then Ok 0.95%float
  else
    let keyword_matches := keyword_matches (Info.keywords info) message_lower in
    if 0 <? keyword_matches
    then Ok (PyFloat.min (0.6 + PyFloat.of_nat keyword_matches * 0.1) 0.9)%float
    else Ok 0.5%float.

(** The first loop of [classify_commit]: the first entry, in the order of
    the dictionary, whose pattern matches. *)
Fixpoint conventional_pass (items : list (string * Info.t)) (message : str)
  : option Cls.t :=
  match items with
  | [] => None
  | (commit_type, info) :: rest =>
      if re_match (Info.pattern info) message
      then Some (Cls.mk commit_type (extract_scope message)
                   (sub_header message) 0.95%float)
      else conventional_pass rest message
  end.

(** The second loop, on the state [(best_match, best_confidence)]. *)
Fixpoint keyword_pass (items : list (string * Info.t))
    (message message_lower : str) (best : string * float)
  : result (string * float) :=
  match items with
  | [] => Ok best
  | (commit_type, info) :: rest =>
      let keyword_matches := keyword_matches (Info.keywords info) message_lower in
      if 0 <? keyword_matches
      then
        confidence <- calculate_confidence message commit_type ;;
        if (snd best <? confidence)%float
        then keyword_pass rest message message_lower (commit_type, confidence)
        else keyword_pass rest message message_lower best
      else keyword_pass rest message message_lower best
  end.

Definition classify_commit (message : str) : result Cls.t :=
  let message := strip message in
  match message with
  | [] => Raise (HTTPException 400 (Text "Empty commit message"))
  | _ :: _ =>
      match conventional_pass COMMIT_TYPES message with
      | Some classification => Ok classification
      | None =>
          let message_lower := lower message in
          best <- keyword_pass COMMIT_TYPES message message_lower
                    ("chore"%string, 0.0%float) ;;
          Ok (Cls.mk (fst best) None message (PyFloat.max (snd best) 0.5%float))
      end
  end.

Definition suggest_format (commit_type : string) (description : str) : str :=
  py "Consider using conventional format: " ++ py commit_type ++ py ": "
  ++ description.
Definition suggest_details : str :=
  py "Commit message is too short. Add more details.".
Definition suggest_shorter : str :=
  py "Commit message is long. Consider keeping summary under 72 characters.".
Definition suggest_imperative : str :=
  py "Use imperative mood (e.g., 'add' instead of 'added')".
Definition suggest_lowercase : str :=
  py "Start description with lowercase letter".

Definition past_tense_indicators : list str :=
  [py "added"; py "fixed"; py "updated"; py "changed"; py "removed";
   py "created"].

Definition generate_suggestions (message : str) (classification : Cls.t)
  : result (list str) :=
  let suggestions : list str := [] in
  let commit_type := Cls.type classification in
  info <- getitem COMMIT_TYPES commit_type ;;
  let suggestions :=
    if negb (re_match (Info.pattern info) message)
    then suggestions
         ++ [suggest_format commit_type (Cls.description classification)]
    else suggestions in
  let suggestions :=
    if List.length message <? 10 then suggestions ++ [suggest_details]
    else suggestions in
  let suggestions :=
    if 100 <? List.length message then suggestions ++ [suggest_shorter]
    else suggestions in
  first_word <-
    match Cls.description classification with
    | _ :: _ =>
        w <- getindex (split (Cls.description classification)) 0 ;;
        Ok (lower w)
    | [] => Ok []
    end ;;
  let suggestions :=
    if existsb (fun ind => startswith first_word ind) past_tense_indicators
    then suggestions ++ [suggest_imperative]
    else suggestions in
  let desc := Cls.description classification in
  let suggestions :=
    match desc with
    | c :: _ => if isupper c then suggestions ++ [suggest_lowercase]
                else suggestions
    | [] => suggestions
    end in
  Ok suggestions.

(** The body of the [try] shared by [classify_message] and
    [classify_batch]; [now] is the reading of [datetime.now().isoformat()]. *)
Definition classify_one (now : str) (msg : str)
  : result ClassificationResult.t :=
  classification <- classify_commit msg ;;
  suggestions <- generate_suggestions msg classification ;;
  Ok (ClassificationResult.mk msg
        (Cls.type classification) (Cls.scope classification)
        (Cls.description classification) (Cls.confidence classification)
        now suggestions).

(** [except Exception as e:
      raise HTTPException(status_code=500, detail=str(e))] *)
Definition classify_message (now : str) (message : str)
  : result ClassificationResult.t :=
  match classify_one now message with
  | Ok r => Ok r
  | Raise e => Raise (HTTPException 500 (StrOf e))
  end.

(** A record of the list returned by [classify_batch]: a classification, or
    [{'message': msg, 'error': str(e)}]. *)
Inductive batch_record : Type :=
| Classified (r : ClassificationResult.t)
| Failed (message : str) (error : detail).

(** The loop of [classify_batch] on the list [results]; [clock i] is the
    reading of the clock at the [i]-th message. *)
Fixpoint batch_loop (clock : nat -> str) (i : nat) (messages : list str)
    (results : list batch_record) : list batch_record :=
  match messages with
  | [] => results
  | msg :: rest =>
      let results :=
        match classify_one (clock i) msg with
        | Ok r => results ++ [Classified r]
        | Raise e => results ++ [Failed msg (StrOf e)]
        end in
      batch_loop clock (S i) rest results
  end.

(** [{'results': results, 'total': len(results)}] *)
Definition classify_batch (clock : nat -> str) (messages : list str)
  : list batch_record * nat :=
  let results := batch_loop clock 0 messages [] in
  (results, List.length results).

(** An entry of the dictionary returned by [get_commit_types]. *)
Module TypeInfo.
Record t : Type := mk {
  description : string;
  keywords : list str;
  example : str
}.
End TypeInfo.

(** [get_commit_types]: the comprehension over [COMMIT_TYPES.items()]. *)
Definition get_commit_types : list (string * TypeInfo.t) :=
  map (fun item : string * Info.t =>
         let (commit_type, info) := item in
         (commit_type,
          TypeInfo.mk (Info.description info) (Info.keywords info)
            (py commit_type ++ py ": example commit message")))
      COMMIT_TYPES.

(** The dictionary returned by [get_stats]. *)
Module Stats.
Record t : Type := mk {
  total_commit_types : nat;
  supported_types : list string;
  api_version : string
}.
End Stats.

(** [get_stats]: [len(COMMIT_TYPES)] and [list(COMMIT_TYPES.keys())]. *)
Definition get_stats : Stats.t :=
  Stats.mk (List.length COMMIT_TYPES) (map fst COMMIT_TYPES) "1.0.0".

(* ===================================================================== *)
(** ** Notions of the specification *)
(* ===================================================================== *)

(** The keys of the table, in declaration order. *)
Definition category_ids : list string := map fst COMMIT_TYPES.

(** [^(feat|fix|docs|style|refactor|perf|test|build|ci|chore|revert)(\([^)]+\))?:\s*.+] *)
Definition any_conventional : regex :=
  Seq (Alt (lits (py "feat")) (Alt (lits (py "fix")) (Alt (lits (py "docs"))
      (Alt (lits (py "style")) (Alt (lits (py "refactor"))
      (Alt (lits (py "perf")) (Alt (lits (py "test")) (Alt (lits (py "build"))
      (Alt (lits (py "ci")) (Alt (lits (py "chore"))
      (lits (py "revert"))))))))))))
    header_tail.

(** No leading and no trailing whitespace. *)
Definition trimmed (s : str) : Prop :=
  (forall c t, s = c :: t -> isspace c = false)
  /\ (forall t c, s = t ++ [c] -> isspace c = false).

(** The first parenthesised group of [s], in the words of the
    specification: the group of the leftmost place where [\(([^)]+)\)]
    matches, none when it matches nowhere. *)
Definition first_paren_group (s : str) (scope : option str) : Prop :=
  match scope with
  | Some g =>
      exists pre post,
        s = pre ++ "("%char :: g ++ ")"%char :: post
        /\ g <> [] /\ ~ In ")"%char g
        /\ forall i, i < List.length pre -> re_match scope_re (skipn i s) = false
  | None => forall i, re_match scope_re (skipn i s) = false
  end.

(** How many keywords of an entry occur in the lower-cased message. *)
Definition keyword_count (message : str) (info : Info.t) : nat :=
  keyword_matches (Info.keywords info) (lower message).

(** The keyword confidence saturates at three keywords. *)
Definition capped (k : nat) : nat := Nat.min k 3.

(** [min(0.6 + k * 0.1, 0.9)] *)
Definition keyword_confidence (k : nat) : float :=
  PyFloat.min (0.6 + PyFloat.of_nat k * 0.1) 0.9%float.

(** The value of [best_confidence] when the best capped count is [n]. *)
Definition capped_confidence (n : nat) : float :=
  match n with
  | O => 0.0%float
  | S _ => keyword_confidence n
  end.

(** The second loop of [classify_commit] read on capped keyword counts: the
    state is the best category so far and its capped count. *)
Fixpoint best_capped (items : list (string * Info.t)) (message : str)
    (best : string * nat) : string * nat :=
  match items with
  | [] => best
  | (commit_type, info) :: rest =>
      let k := capped (keyword_count message info) in
      if snd best <? k
      then best_capped rest message (commit_type, k)
      else best_capped rest message best
  end.

(** What the code relies on for an entry of the table: its key finds it,
    its pattern is the conventional one of its key, and it has at most six
    keywords. *)
Definition entry_ok (e : string * Info.t) : Prop :=
  getitem COMMIT_TYPES (fst e) = Ok (snd e)
  /\ Info.pattern (snd e) = conventional (fst e)
  /\ List.length (Info.keywords (snd e)) <= 6.

(** The confidence that [calculate_confidence] gives to [k] keywords. *)
Definition ladder (k : nat) : float :=
  match k with
  | 0 => 0.5%float
  | 1 => 0.7%float
  | 2 => 0.8%float
  | _ => 0.9%float
  end.

(** A one-character item that does not tell a character from its lower
    case, and a pattern made of such items. *)
Definition class_case_blind (cl : cclass) : Prop :=
  forall c, accepts cl (lower_char c) = accepts cl c.

Fixpoint case_blind (r : regex) : Prop :=
  match r with
  | Eps => True
  | Chr cl | Star cl | Plus cl => class_case_blind cl
  | Seq r1 r2 | Alt r1 r2 => case_blind r1 /\ case_blind r2
  | Opt r1 => case_blind r1
  end.

(** A classification with its scope and description in lower case. *)
Definition lower_cls (cls : Cls.t) : Cls.t :=
  Cls.mk (Cls.type cls) (option_map lower (Cls.scope cls))
    (lower (Cls.description cls)) (Cls.confidence cls).

(* ===================================================================== *)
(** ** Strings *)
(* ===================================================================== *)

Section Strings.

Implicit Types (s t u v w : str) (c d : ascii).

Lemma lstrip_space_prefix s :
  exists w, s = w ++ lstrip s /\ forallb isspace w = true.
Proof.
  induction s as [|c s [w [E W]]]; simpl.
  - exists []. auto.
  - destruct (isspace c) eqn:Hc.
    + exists (c :: w). simpl. rewrite Hc, W. split; [f_equal; exact E | reflexivity].
    + exists []. auto.
Qed.

Lemma lstrip_head s c t : lstrip s = c :: t -> isspace c = false.
Proof.
  induction s as [|a s IH]; simpl; [discriminate|].
  destruct (isspace a) eqn:Ha; auto.
  intros E. injection E as -> _. exact Ha.
Qed.

Lemma lstrip_nil s : lstrip s = [] <-> forallb isspace s = true.
Proof.
  induction s as [|a s IH]; simpl; [tauto|].
  destruct (isspace a); simpl; [exact IH|].
  split; discriminate.
Qed.

Lemma lstrip_id s : (forall c t, s = c :: t -> isspace c = false) -> lstrip s = s.
Proof.
  destruct s as [|c t]; simpl; auto.
  intros H. now rewrite (H c t eq_refl).
Qed.

Lemma lstrip_span s : snd (span Space s) = lstrip s.
Proof.
  induction s as [|c s IH]; simpl; auto.
  destruct (isspace c); auto.
  destruct (span Space s); exact IH.
Qed.

Lemma lstrip_app_space w s : forallb isspace w = true -> lstrip (w ++ s) = lstrip s.
Proof.
  induction w as [|c w IH]; simpl; auto.
  intros H. apply andb_prop in H as [-> H]. auto.
Qed.

Lemma forallb_rev (f : ascii -> bool) s : forallb f (rev s) = forallb f s.
Proof.
  induction s as [|c s IH]; simpl; auto.
  rewrite forallb_app, IH. simpl. rewrite andb_true_r. apply andb_comm.
Qed.

Lemma rstrip_space_suffix s :
  exists w, s = rstrip s ++ w /\ forallb isspace w = true.
Proof.
  unfold rstrip. destruct (lstrip_space_prefix (rev s)) as [w [E W]].
  exists (rev w). split.
  - rewrite <- rev_app_distr, <- E. symmetry. apply rev_involutive.
  - now rewrite forallb_rev.
Qed.

Lemma rstrip_last s t c : rstrip s = t ++ [c] -> isspace c = false.
Proof.
  unfold rstrip. intros E.
  apply (f_equal (@rev ascii)) in E.
  rewrite rev_involutive, rev_app_distr in E. simpl in E.
  exact (lstrip_head _ _ _ E).
Qed.

Lemma rstrip_nil s : rstrip s = [] <-> forallb isspace s = true.
Proof.
  unfold rstrip. rewrite <- (forallb_rev isspace s), <- lstrip_nil.
  split; intros E.
  - apply (f_equal (@rev ascii)) in E. now rewrite rev_involutive in E.
  - now rewrite E.
Qed.

Lemma rstrip_id s : (forall t c, s = t ++ [c] -> isspace c = false) -> rstrip s = s.
Proof.
  intros H. unfold rstrip. rewrite lstrip_id; [apply rev_involutive|].
  intros c t E. apply (H (rev t) c).
  rewrite <- (rev_involutive s), E. reflexivity.
Qed.

Lemma rstrip_app_space s w : forallb isspace w = true -> rstrip (s ++ w) = rstrip s.
Proof.
  intros H. unfold rstrip. rewrite rev_app_distr, lstrip_app_space; auto.
  now rewrite forallb_rev.
Qed.

(** The trimmed message sits inside the message, between two runs of
    whitespace. *)
Lemma strip_decompose s :
  exists w1 w2, s = w1 ++ strip s ++ w2
    /\ forallb isspace w1 = true /\ forallb isspace w2 = true.
Proof.
  unfold strip.
  destruct (lstrip_space_prefix s) as [w1 [E1 W1]].
  destruct (rstrip_space_suffix (lstrip s)) as [w2 [E2 W2]].
  exists w1, w2. repeat split; auto. now rewrite <- E2.
Qed.

Lemma strip_trimmed s : trimmed (strip s).
Proof.
  split.
  - intros c t E. unfold strip in E.
    destruct (rstrip_space_suffix (lstrip s)) as [w [E2 _]].
    rewrite E in E2. simpl in E2. exact (lstrip_head _ _ _ E2).
  - intros t c E. exact (rstrip_last _ _ _ E).
Qed.

Lemma strip_nil s : strip s = [] <-> forallb isspace s = true.
Proof.
  unfold strip. rewrite rstrip_nil. split; intros H.
  - destruct (lstrip_space_prefix s) as [w [E W]].
    rewrite E, forallb_app, W, H. reflexivity.
  - apply lstrip_nil. apply lstrip_nil in H. now rewrite H.
Qed.

Lemma strip_id s : trimmed s -> strip s = s.
Proof.
  intros [H1 H2]. unfold strip. rewrite (lstrip_id s H1). now apply rstrip_id.
Qed.

(** A non-empty list ends with some character. *)
Lemma last_exists s : s <> [] -> exists t c, s = t ++ [c].
Proof.
  intros H. destruct (exists_last H) as [t [c E]]. eauto.
Qed.

Lemma startswith_spec s p : startswith s p = true <-> exists t, s = p ++ t.
Proof.
  revert s. induction p as [|a p IH]; intros s; simpl.
  - split; [intros _; exists s; reflexivity | reflexivity].
  - destruct s as [|b s].
    + split; [discriminate | intros [t E]; discriminate].
    + rewrite andb_true_iff, Ascii.eqb_eq, IH. split.
      * intros [-> [t ->]]. eauto.
      * intros [t E]. injection E as -> ->. eauto.
Qed.

End Strings.

(* ===================================================================== *)
(** ** The matcher and the words of a pattern *)
(* ===================================================================== *)

Section Matcher.

Implicit Types (s t u v w : str) (c d : ascii) (k : str -> bool).

Lemma star_spec cl s k :
  star cl s k = true
  <-> exists u v, s = u ++ v /\ forallb (accepts cl) u = true /\ k v = true.
Proof.
  induction s as [|c t IH]; simpl.
  - split.
    + intros K. exists [], []. auto.
    + intros (u & v & E & _ & K). symmetry in E.
      apply app_eq_nil in E as [_ ->]. exact K.
  - rewrite orb_true_iff, andb_true_iff, IH. split.
    + intros [[A (u & v & -> & U & K)] | K].
      * exists (c :: u), v. simpl. rewrite A, U. auto.
      * exists [], (c :: t). auto.
    + intros (u & v & E & U & K). destruct u as [|a u]; simpl in *.
      * right. subst v. exact K.
      * injection E as -> ->. apply andb_prop in U as [A U].
        left. split; auto. exists u, v. auto.
Qed.

(** The matcher succeeds exactly when a prefix is a word of the pattern and
    the continuation accepts the rest. *)
Lemma run_spec r : forall s k,
  run r s k = true <-> exists u v, s = u ++ v /\ Lang r u /\ k v = true.
Proof.
  induction r as [|cl|r1 IH1 r2 IH2|r1 IH1 r2 IH2|r1 IH1|cl|cl];
    intros s k; simpl.
  - split.
    + intros K. exists [], s. repeat split; auto. constructor.
    + intros (u & v & -> & L & K). inversion L; subst. exact K.
  - destruct s as [|c t].
    + split; [discriminate|].
      intros (u & v & E & L & _). inversion L; subst. discriminate.
    + rewrite andb_true_iff. split.
      * intros [A K]. exists [c], t. repeat split; auto. now constructor.
      * intros (u & v & E & L & K). inversion L; subst.
        injection E as -> ->. auto.
  - rewrite IH1. split.
    + intros (u & v & -> & L1 & R2).
      apply IH2 in R2 as (u2 & v2 & -> & L2 & K).
      exists (u ++ u2), v2. rewrite app_assoc. repeat split; auto.
      now constructor.
    + intros (u & v & -> & L & K). inversion L; subst.
      exists u0, (v0 ++ v). rewrite <- app_assoc. repeat split; auto.
      apply IH2. exists v0, v. auto.
  - rewrite orb_true_iff, IH1, IH2. split.
    + intros [(u & v & -> & L & K) | (u & v & -> & L & K)];
        exists u, v; repeat split; auto; [now apply LAltL | now apply LAltR].
    + intros (u & v & -> & L & K). inversion L; subst;
        [left | right]; exists u, v; auto.
  - rewrite orb_true_iff, IH1. split.
    + intros [(u & v & -> & L & K) | K].
      * exists u, v. repeat split; auto. now apply LOptSome.
      * exists [], s. repeat split; auto. apply LOptNone.
    + intros (u & v & -> & L & K). inversion L; subst.
      * right. exact K.
      * left. exists u, v. auto.
  - rewrite star_spec. split.
    + intros (u & v & -> & U & K). exists u, v. repeat split; auto.
      now constructor.
    + intros (u & v & -> & L & K). inversion L; subst. exists u, v. auto.
  - destruct s as [|c t].
    + split; [discriminate|].
      intros (u & v & E & L & _). inversion L; subst. discriminate.
    + rewrite andb_true_iff, star_spec. split.
      * intros [A (u & v & -> & U & K)]. exists (c :: u), v.
        repeat split; auto. now constructor.
      * intros (u & v & E & L & K). inversion L; subst.
        injection E as -> ->. split; auto. exists u0, v. auto.
Qed.

Lemma re_match_spec r s :
  re_match r s = true <-> exists u v, s = u ++ v /\ Lang r u.
Proof.
  unfold re_match. rewrite run_spec. split.
  - intros (u & v & E & L & _). eauto.
  - intros (u & v & E & L). exists u, v. auto.
Qed.

(** A match is not lost when text is appended. *)
Lemma re_match_app r s w : re_match r s = true -> re_match r (s ++ w) = true.
Proof.
  rewrite !re_match_spec. intros (u & v & -> & L).
  exists u, (v ++ w). now rewrite app_assoc.
Qed.

Lemma span_spec cl s :
  s = fst (span cl s) ++ snd (span cl s)
  /\ forallb (accepts cl) (fst (span cl s)) = true
  /\ match snd (span cl s) with
     | c :: _ => accepts cl c = false
     | [] => True
     end.
Proof.
  induction s as [|c t IH]; simpl; auto.
  destruct (accepts cl c) eqn:A; simpl; auto.
  destruct (span cl t) as [a b]. simpl in *.
  destruct IH as (E & F & B). repeat split; auto.
  - now f_equal.
  - now rewrite A, F.
Qed.

Lemma span_app cl a b :
  forallb (accepts cl) a = true ->
  match b with c :: _ => accepts cl c = false | [] => True end ->
  span cl (a ++ b) = (a, b).
Proof.
  intros F B. induction a as [|c a IH]; cbn [span app forallb] in *.
  - destruct b as [|c b]; auto. cbn [span]. now rewrite B.
  - apply andb_prop in F as [-> F]. now rewrite (IH F).
Qed.

(** The words of a literal text are its spellings in either case. *)
Lemma lits_lang w u : Lang (lits w) u <-> lower u = lower w.
Proof.
  revert u. induction w as [|p w IH]; intros u; simpl.
  - split.
    + intros L. inversion L. reflexivity.
    + destruct u; [constructor | discriminate].
  - split.
    + intros L. inversion L as [| |? ? x y L1 L2| | | | | |]; subst.
      inversion L1 as [|? c A| | | | | | |]; subst. simpl in *.
      apply Ascii.eqb_eq in A. rewrite A. f_equal. now apply IH.
    + destruct u as [|c u]; [discriminate|]. simpl. intros E.
      injection E as E1 E2. change (c :: u) with ([c] ++ u).
      constructor; [constructor; simpl; now apply Ascii.eqb_eq | now apply IH].
Qed.

(** The flag has no effect on the three punctuation literals. *)
Lemma lit_uncased p c :
  p = "("%char \/ p = ")"%char \/ p = ":"%char ->
  accepts (Lit p) c = Ascii.eqb c p.
Proof.
  intros [-> | [-> | ->]];
    destruct c as [[] [] [] [] [] [] [] []]; reflexivity.
Qed.

Lemma notlit_forallb p u : forallb (accepts (NotLit p)) u = true <-> ~ In p u.
Proof.
  induction u as [|c u IH]; simpl.
  - tauto.
  - rewrite andb_true_iff, IH, negb_true_iff, Ascii.eqb_neq. intuition.
Qed.

End Matcher.

(* ===================================================================== *)
(** ** The patterns of the program *)
(* ===================================================================== *)

Section Patterns.

Implicit Types (s t u v w g : str) (c d : ascii).

Lemma Lang_seq_inv r1 r2 w :
  Lang (Seq r1 r2) w -> exists u v, w = u ++ v /\ Lang r1 u /\ Lang r2 v.
Proof. intros L. inversion L; subst. eauto. Qed.

Lemma Lang_chr_inv cl w :
  Lang (Chr cl) w -> exists c, w = [c] /\ accepts cl c = true.
Proof. intros L. inversion L; subst. eauto. Qed.

Lemma Lang_plus_inv cl w :
  Lang (Plus cl) w ->
  exists c u, w = c :: u /\ accepts cl c = true /\ forallb (accepts cl) u = true.
Proof. intros L. inversion L; subst. eauto. Qed.

Lemma Lang_star_inv cl w : Lang (Star cl) w -> forallb (accepts cl) w = true.
Proof. intros L. now inversion L. Qed.

Lemma Lang_opt_inv r w : Lang (Opt r) w -> w = [] \/ Lang r w.
Proof. intros L. inversion L; subst; auto. Qed.

Lemma Lang_alt_inv r1 r2 w : Lang (Alt r1 r2) w -> Lang r1 w \/ Lang r2 w.
Proof. intros L. inversion L; subst; auto. Qed.

(** The words of [\([^)]+\)]. *)
Lemma scope_re_lang w :
  Lang scope_re w
  <-> exists g, w = "("%char :: g ++ [")"%char] /\ g <> [] /\ ~ In ")"%char g.
Proof.
  unfold scope_re. split.
  - intros L.
    apply Lang_seq_inv in L as (u1 & v1 & -> & L1 & L).
    apply Lang_seq_inv in L as (u2 & v2 & -> & L2 & L3).
    apply Lang_chr_inv in L1 as (c1 & -> & A1).
    apply Lang_chr_inv in L3 as (c3 & -> & A3).
    apply Lang_plus_inv in L2 as (c2 & u & -> & A2 & U).
    rewrite lit_uncased in A1, A3 by auto.
    apply Ascii.eqb_eq in A1, A3. subst.
    exists (c2 :: u). repeat split; [discriminate|].
    apply notlit_forallb. cbn [forallb]. now rewrite A2.
  - intros (g & -> & G & N). destruct g as [|c g]; [contradiction|].
    apply notlit_forallb in N. cbn [forallb] in N.
    apply andb_prop in N as [A N].
    change ("("%char :: (c :: g) ++ [")"%char])
      with (["("%char] ++ (c :: g) ++ [")"%char]).
    constructor; [now constructor|].
    constructor; [now constructor | now constructor].
Qed.

Lemma scope_re_match s :
  re_match scope_re s = true
  <-> exists g post,
        s = "("%char :: g ++ ")"%char :: post /\ g <> [] /\ ~ In ")"%char g.
Proof.
  rewrite re_match_spec. split.
  - intros (u & v & -> & L). apply scope_re_lang in L as (g & -> & G & N).
    exists g, v. repeat split; auto. simpl. now rewrite <- app_assoc.
  - intros (g & post & -> & G & N).
    exists ("("%char :: g ++ [")"%char]), post. split.
    + simpl. now rewrite <- app_assoc.
    + apply scope_re_lang. eauto.
Qed.

Lemma paren_group_at_Some s g :
  paren_group_at s = Some g
  <-> exists post,
        s = "("%char :: g ++ ")"%char :: post /\ g <> [] /\ ~ In ")"%char g.
Proof.
  unfold paren_group_at. split.
  - destruct s as [|c t]; [discriminate|].
    rewrite lit_uncased by auto.
    destruct (Ascii.eqb c "(") eqn:C; [|discriminate].
    apply Ascii.eqb_eq in C. subst c.
    destruct (span_spec (NotLit ")"%char) t) as (E & F & B).
    destruct (span (NotLit ")"%char) t) as [a b]. simpl in *.
    destruct a as [|x a]; [discriminate|].
    destruct b as [|y b]; [discriminate|].
    intros G. injection G as <-.
    apply negb_false_iff, Ascii.eqb_eq in B. subst y.
    exists b. repeat split; [now rewrite E | discriminate|].
    now apply notlit_forallb.
  - intros (post & -> & G & N). rewrite lit_uncased by auto. simpl.
    rewrite (span_app (NotLit ")"%char) g (")"%char :: post)).
    + destruct g; [contradiction | reflexivity].
    + now apply notlit_forallb.
    + reflexivity.
Qed.

Lemma paren_group_at_None s :
  paren_group_at s = None <-> re_match scope_re s = false.
Proof.
  split; intros H.
  - destruct (re_match scope_re s) eqn:M; auto.
    apply scope_re_match in M as (g & post & E).
    assert (paren_group_at s = Some g) by (apply paren_group_at_Some; eauto).
    congruence.
  - destruct (paren_group_at s) as [g|] eqn:P; auto.
    apply paren_group_at_Some in P as (post & E).
    assert (re_match scope_re s = true) by (apply scope_re_match; eauto).
    congruence.
Qed.

(** [extract_scope] computes the first parenthesised group. *)
Lemma extract_scope_first s : first_paren_group s (extract_scope s).
Proof.
  unfold extract_scope. induction s as [|c t IH].
  - simpl. intros i. now destruct i.
  - cbn [search_paren_group].
    destruct (paren_group_at (c :: t)) as [g|] eqn:P.
    + apply paren_group_at_Some in P as (post & E & G & N).
      exists [], post. repeat split; auto. simpl. intros i Hi. lia.
    + apply paren_group_at_None in P.
      destruct (search_paren_group t) as [g|].
      * destruct IH as (pre & post & -> & G & N & First).
        exists (c :: pre), post. repeat split; auto.
        intros [|i] Hi; [exact P|]. simpl in *. apply First. lia.
      * intros [|i]; [exact P | apply IH].
Qed.

(** The first parenthesised group is unique, so [first_paren_group]
    determines the scope. *)
Lemma first_paren_group_fun s x y :
  first_paren_group s x -> first_paren_group s y -> x = y.
Proof.
  assert (Skip : forall pre rest : str,
             skipn (List.length pre) (pre ++ rest) = rest).
  { induction pre; simpl; auto. }
  assert (Clash : forall g pre post,
    s = pre ++ "("%char :: g ++ ")"%char :: post -> g <> [] ->
    ~ In ")"%char g -> re_match scope_re (skipn (List.length pre) s) = true).
  { intros g pre post -> G N. rewrite Skip. apply scope_re_match. eauto. }
  destruct x as [g1|], y as [g2|]; simpl; auto.
  - intros (p1 & q1 & E1 & G1 & N1 & F1) (p2 & q2 & E2 & G2 & N2 & F2).
    assert (L : List.length p1 = List.length p2).
    { destruct (Nat.lt_trichotomy (List.length p1) (List.length p2))
        as [Lt | [Eq | Gt]]; auto.
      - specialize (F2 _ Lt). rewrite (Clash g1 p1 q1) in F2; auto; discriminate.
      - specialize (F1 _ Gt). rewrite (Clash g2 p2 q2) in F1; auto; discriminate. }
    assert (R : "("%char :: g1 ++ ")"%char :: q1
                = "("%char :: g2 ++ ")"%char :: q2).
    { rewrite <- (Skip p1 ("("%char :: g1 ++ ")"%char :: q1)), <- E1.
      rewrite L, E2. apply Skip. }
    injection R as R.
    assert (S1 := span_app (NotLit ")"%char) g1 (")"%char :: q1)
                    (proj2 (notlit_forallb _ _) N1) eq_refl).
    assert (S2 := span_app (NotLit ")"%char) g2 (")"%char :: q2)
                    (proj2 (notlit_forallb _ _) N2) eq_refl).
    rewrite R in S1. congruence.
  - intros (p1 & q1 & E1 & G1 & N1 & _) F.
    specialize (F (List.length p1)).
    rewrite (Clash g1 p1 q1) in F; auto; discriminate.
  - intros F (p2 & q2 & E2 & G2 & N2 & _).
    specialize (F (List.length p2)).
    rewrite (Clash g2 p2 q2) in F; auto; discriminate.
Qed.

(** Whitespace around a message does not change its first group. *)
Lemma space_not_paren c :
  isspace c = true -> c <> "("%char /\ c <> ")"%char.
Proof. intros C. split; intros ->; vm_compute in C; discriminate. Qed.

Lemma search_skip_space w s :
  forallb isspace w = true ->
  search_paren_group (w ++ s) = search_paren_group s.
Proof.
  induction w as [|c w IH]; [reflexivity|].
  cbn [forallb app]. intros F. apply andb_prop in F as [C F].
  cbn [search_paren_group]. unfold paren_group_at at 1.
  rewrite lit_uncased by auto.
  destruct (space_not_paren c C) as [N _].
  apply Ascii.eqb_neq in N. rewrite N. now apply IH.
Qed.

Lemma span_all cl w : forallb (accepts cl) w = true -> span cl w = (w, []).
Proof.
  intros F. rewrite <- (app_nil_r w) at 1. now apply span_app.
Qed.

Lemma space_accepted w :
  forallb isspace w = true -> forallb (accepts (NotLit ")"%char)) w = true.
Proof.
  intros F. apply notlit_forallb. intros I.
  pose proof (proj1 (forallb_forall _ _) F _ I) as C.
  vm_compute in C. discriminate.
Qed.

Lemma span_app_space t w :
  forallb isspace w = true ->
  span (NotLit ")"%char) (t ++ w)
  = match snd (span (NotLit ")"%char) t) with
    | [] => (fst (span (NotLit ")"%char) t) ++ w, [])
    | _ :: _ => (fst (span (NotLit ")"%char) t),
                 snd (span (NotLit ")"%char) t) ++ w)
    end.
Proof.
  intros F. induction t as [|c t IH]; cbn [app span].
  - cbn [fst snd app]. apply span_all. now apply space_accepted.
  - destruct (accepts (NotLit ")"%char) c); [|reflexivity].
    rewrite IH. destruct (span (NotLit ")"%char) t) as [a b].
    cbn [fst snd]. now destruct b.
Qed.

Lemma paren_group_at_app_space s w :
  forallb isspace w = true -> s <> [] ->
  paren_group_at (s ++ w) = paren_group_at s.
Proof.
  intros F NE. destruct s as [|c t]; [contradiction|].
  unfold paren_group_at. cbn [app].
  destruct (accepts (Lit "("%char) c); [|reflexivity].
  rewrite (span_app_space t w F).
  destruct (span (NotLit ")"%char) t) as [a b]. cbn [fst snd].
  destruct b as [|d b]; [now destruct (a ++ w), a | now destruct a].
Qed.

Lemma search_app_space s w :
  forallb isspace w = true ->
  search_paren_group (s ++ w) = search_paren_group s.
Proof.
  intros F. induction s as [|c t IH].
  - cbn [app]. rewrite <- (app_nil_r w). now apply search_skip_space.
  - change ((c :: t) ++ w) with (c :: t ++ w). cbn [search_paren_group].
    change (c :: t ++ w) with ((c :: t) ++ w).
    rewrite (paren_group_at_app_space (c :: t) w F) by discriminate.
    now rewrite IH.
Qed.

Lemma extract_scope_strip s : extract_scope (strip s) = extract_scope s.
Proof.
  destruct (strip_decompose s) as (w1 & w2 & E & W1 & W2).
  unfold extract_scope. rewrite E at 2.
  rewrite (search_skip_space w1 _ W1). now rewrite (search_app_space _ w2 W2).
Qed.

(** What [re.sub(r'^[^:]+:\s*', '', s)] leaves. *)
Lemma sub_header_colon a b :
  a <> [] -> ~ In ":"%char a -> sub_header (a ++ ":"%char :: b) = lstrip b.
Proof.
  intros A N. unfold sub_header.
  rewrite (span_app (NotLit ":"%char) a (":"%char :: b)).
  - destruct a; [contradiction | apply lstrip_span].
  - now apply notlit_forallb.
  - reflexivity.
Qed.

Lemma sub_header_no_colon s : ~ In ":"%char s -> sub_header s = s.
Proof.
  intros N. unfold sub_header.
  rewrite <- (app_nil_r s) at 1.
  rewrite (span_app (NotLit ":"%char) s []); auto.
  - now destruct s.
  - now apply notlit_forallb.
Qed.

(** The first colon of a text that has one. *)
Lemma first_colon x y :
  exists a z, x ++ ":"%char :: y = a ++ ":"%char :: z ++ y
              /\ ~ In ":"%char a /\ (exists x', x = a ++ x').
Proof.
  induction x as [|c x (a & z & E & N & x' & X)].
  - exists [], []. repeat split; auto. exists []. reflexivity.
  - destruct (Ascii.eqb_spec c ":"%char) as [-> | C].
    + exists [], (x ++ [":"%char]). simpl. rewrite <- app_assoc.
      repeat split; auto. exists (":"%char :: x). reflexivity.
    + exists (c :: a), z. simpl. rewrite E. repeat split.
      * intros [H | H]; [congruence | contradiction].
      * exists x'. now rewrite X.
Qed.

End Patterns.

(* ===================================================================== *)
(** ** The table and the conventional patterns *)
(* ===================================================================== *)

Section Conventional.

Implicit Types (s t u v w g : str) (c d : ascii) (ty : string).

Lemma table_ok : Forall entry_ok COMMIT_TYPES.
Proof.
  unfold COMMIT_TYPES.
  repeat (apply Forall_cons; [repeat split; simpl; lia|]).
  apply Forall_nil.
Qed.

Lemma category_entry ty :
  In ty category_ids ->
  exists info, In (ty, info) COMMIT_TYPES /\ entry_ok (ty, info).
Proof.
  unfold category_ids. rewrite in_map_iff. intros ([k info] & <- & I).
  exists info. split; auto.
  exact (proj1 (Forall_forall _ _) table_ok _ I).
Qed.

Lemma entry_category e : In e COMMIT_TYPES -> In (fst e) category_ids.
Proof. apply in_map. Qed.

(** A message that matches the pattern of [ty]: a spelling of [ty], an
    optional scope, a colon and a non-empty rest. *)
Lemma conventional_shape ty s :
  re_match (conventional ty) s = true ->
  exists n o rest,
    s = n ++ o ++ ":"%char :: rest
    /\ lower n = lower (py ty)
    /\ (o = [] \/ exists g, o = "("%char :: g ++ [")"%char])
    /\ rest <> [].
Proof.
  unfold conventional, header_tail. rewrite re_match_spec.
  intros (u & v & -> & L).
  apply Lang_seq_inv in L as (n & h & -> & Ln & L).
  apply Lang_seq_inv in L as (o & h1 & -> & Lo & L).
  apply Lang_seq_inv in L as (k & h2 & -> & Lk & L).
  apply Lang_seq_inv in L as (ws & dots & -> & _ & Ld).
  apply Lang_chr_inv in Lk as (c & -> & C).
  rewrite lit_uncased in C by auto. apply Ascii.eqb_eq in C. subst c.
  apply Lang_plus_inv in Ld as (c & r & -> & _ & _).
  apply lits_lang in Ln.
  exists n, o, (ws ++ (c :: r) ++ v). repeat split; auto.
  - rewrite <- !app_assoc. reflexivity.
  - apply Lang_opt_inv in Lo as [-> | Lo]; auto.
    apply scope_re_lang in Lo as (g & -> & _). eauto.
  - intros E. apply app_eq_nil in E as [_ E]. discriminate.
Qed.

(** In lower case such a message starts with [ty] and then [(] or [:]. *)
Lemma conventional_head ty s :
  re_match (conventional ty) s = true ->
  exists d t, (d = "("%char \/ d = ":"%char) /\ lower s = lower (py ty) ++ d :: t.
Proof.
  intros M. apply conventional_shape in M as (n & o & rest & -> & N & O & _).
  unfold lower in *. rewrite map_app, N.
  destruct O as [-> | (g & ->)]; simpl; eauto.
Qed.

(** No message matches the patterns of two categories. *)
Lemma conventional_unique ty1 ty2 s :
  In ty1 category_ids -> In ty2 category_ids ->
  re_match (conventional ty1) s = true ->
  re_match (conventional ty2) s = true ->
  ty1 = ty2.
Proof.
  intros I1 I2 M1 M2.
  apply conventional_head in M1 as (d1 & t1 & D1 & E1).
  apply conventional_head in M2 as (d2 & t2 & D2 & E2).
  rewrite E1 in E2. clear E1.
  assert (D : (d1 = "("%char \/ d1 = ":"%char) /\ (d2 = "("%char \/ d2 = ":"%char))
    by auto.
  clear D1 D2. cbv [category_ids COMMIT_TYPES map fst] in I1, I2.
  repeat (destruct I1 as [<- | I1]); try contradiction;
    repeat (destruct I2 as [<- | I2]); try contradiction;
    try reflexivity; exfalso;
    cbv in E2; destruct D as [[-> | ->] [-> | ->]]; congruence.
Qed.

(** The pattern of the specification matches when the pattern of one
    category does. *)
Lemma any_conventional_iff s :
  re_match any_conventional s = true
  <-> exists ty, In ty category_ids /\ re_match (conventional ty) s = true.
Proof.
  unfold any_conventional, conventional. split.
  - rewrite re_match_spec. intros (u & v & -> & L).
    apply Lang_seq_inv in L as (n & h & -> & L1 & L2).
    repeat (apply Lang_alt_inv in L1 as [L1 | L1]);
      (eexists; split;
       [| apply re_match_spec; exists (n ++ h), v;
          split; [reflexivity | apply LSeq; [exact L1 | exact L2]]]);
      cbv [category_ids COMMIT_TYPES map fst]; simpl; tauto.
  - intros (ty & I & M). apply re_match_spec in M as (u & v & -> & L).
    apply Lang_seq_inv in L as (n & h & -> & L1 & L2).
    apply re_match_spec. exists (n ++ h), v. split; [reflexivity|].
    apply LSeq; [|exact L2].
    cbv [category_ids COMMIT_TYPES map fst] in I.
    repeat (destruct I as [<- | I]); try contradiction;
      repeat (first [exact L1 | apply LAltL; exact L1 | apply LAltR]).
Qed.

(** The first loop finds nothing exactly when no pattern matches. *)
Lemma conventional_pass_None items s :
  conventional_pass items s = None
  <-> Forall (fun e => re_match (Info.pattern (snd e)) s = false) items.
Proof.
  induction items as [|[ty info] rest IH]; simpl.
  - split; auto.
  - destruct (re_match (Info.pattern info) s) eqn:M.
    + split; [discriminate|]. intros F. inversion F; subst.
      simpl in *. congruence.
    + rewrite IH. split; intros F.
      * now constructor.
      * now inversion F.
Qed.

(** What it finds is built from an entry whose pattern matches. *)
Lemma conventional_pass_Some items s cls :
  conventional_pass items s = Some cls ->
  exists info,
    In (Cls.type cls, info) items
    /\ re_match (Info.pattern info) s = true
    /\ cls = Cls.mk (Cls.type cls) (extract_scope s) (sub_header s) 0.95%float.
Proof.
  induction items as [|[ty info] rest IH]; simpl; [discriminate|].
  destruct (re_match (Info.pattern info) s) eqn:M.
  - intros E. injection E as <-. simpl. exists info. auto.
  - intros E. destruct (IH E) as (i & I & R). exists i. auto.
Qed.

Lemma no_conventional_iff s :
  conventional_pass COMMIT_TYPES s = None
  <-> forall ty, In ty category_ids -> re_match (conventional ty) s = false.
Proof.
  rewrite conventional_pass_None, Forall_forall. split.
  - intros H ty I. destruct (category_entry ty I) as (info & In_ & _ & P & _).
    specialize (H _ In_). simpl in *. now rewrite <- P.
  - intros H [ty info] I.
    destruct (proj1 (Forall_forall _ _) table_ok _ I) as (_ & P & _).
    simpl in *. rewrite P. apply H. exact (entry_category _ I).
Qed.

(** The result of the conventional-format pass. *)
Lemma conventional_pass_match ty s :
  In ty category_ids -> re_match (conventional ty) s = true ->
  conventional_pass COMMIT_TYPES s
  = Some (Cls.mk ty (extract_scope s) (sub_header s) 0.95%float).
Proof.
  intros I M.
  destruct (conventional_pass COMMIT_TYPES s) as [cls|] eqn:P.
  - destruct (conventional_pass_Some _ _ _ P) as (info & In_ & M' & ->).
    simpl in *.
    destruct (proj1 (Forall_forall _ _) table_ok _ In_) as (_ & Pat & _).
    simpl in Pat. rewrite Pat in M'.
    rewrite (conventional_unique ty (Cls.type cls) s); auto.
    exact (entry_category _ In_).
  - rewrite no_conventional_iff in P. rewrite (P ty I) in M. discriminate.
Qed.

End Conventional.

(* ===================================================================== *)
(** ** The keyword fallback *)
(* ===================================================================== *)

Section Fallback.

Implicit Types (s message : str) (ty : string) (k n : nat).

Lemma keyword_matches_le kws s : keyword_matches kws s <= List.length kws.
Proof. apply filter_length_le. Qed.

Lemma capped_le k : capped k <= 3.
Proof. unfold capped. lia. Qed.

(** Three keywords already give 0.9. *)
Lemma keyword_confidence_capped k :
  1 <= k <= 6 -> keyword_confidence k = capped_confidence (capped k).
Proof.
  intros H.
  do 7 (destruct k as [|k]; [try lia; vm_compute; reflexivity|]). lia.
Qed.

(** Confidences compare as capped counts do. *)
Lemma capped_confidence_ltb a b :
  a <= 3 -> b <= 3 ->
  PrimFloat.ltb (capped_confidence a) (capped_confidence b) = (a <? b).
Proof.
  intros Ha Hb.
  do 4 (destruct a as [|a]; [do 4 (destruct b as [|b];
          [vm_compute; reflexivity|]); lia|]). lia.
Qed.

Lemma capped_confidence_range n :
  n <= 3 ->
  PrimFloat.leb 0.5 (PyFloat.max (capped_confidence n) 0.5) = true
  /\ PrimFloat.leb (PyFloat.max (capped_confidence n) 0.5) 0.9 = true
  /\ PrimFloat.leb (PyFloat.max (capped_confidence n) 0.5) 0.95 = true.
Proof.
  intros H.
  do 4 (destruct n as [|n]; [repeat split; vm_compute; reflexivity|]). lia.
Qed.

(** The keyword formula of [calculate_confidence] stays at or below 0.9. *)
Lemma keyword_formula_le k :
  k <= 6 ->
  PrimFloat.leb (if 0 <? k then keyword_confidence k else 0.5) 0.9 = true.
Proof.
  intros H.
  do 7 (destruct k as [|k]; [vm_compute; reflexivity|]). lia.
Qed.

Lemma below_conventional x : PrimFloat.leb x 0.9 = true -> x <> 0.95%float.
Proof. intros L E. rewrite E in L. vm_compute in L. discriminate. Qed.

(** When the pattern of the category does not match,
    [calculate_confidence] is the keyword formula. *)
Lemma calculate_confidence_keywords message ty info :
  entry_ok (ty, info) ->
  re_match (conventional ty) message = false ->
  calculate_confidence message ty
  = Ok (if 0 <? keyword_count message info
        then keyword_confidence (keyword_count message info)
        else 0.5%float).
Proof.
  intros (G & P & _) M. cbn [fst snd] in *.
  unfold calculate_confidence. rewrite G. cbn [bind]. rewrite P, M.
  unfold keyword_count, keyword_confidence.
  now destruct (0 <? keyword_matches (Info.keywords info) (lower message)).
Qed.

(** The second loop computes [best_capped]. *)
Lemma keyword_pass_capped message items : forall name n,
  Forall entry_ok items ->
  Forall (fun e => re_match (conventional (fst e)) message = false) items ->
  n <= 3 ->
  keyword_pass items message (lower message) (name, capped_confidence n)
  = Ok (fst (best_capped items message (name, n)),
        capped_confidence (snd (best_capped items message (name, n)))).
Proof.
  induction items as [|[ty info] rest IH]; intros name n OK NM Hn.
  - reflexivity.
  - inversion OK as [|? ? OKe OKr]; subst.
    inversion NM as [|? ? NMe NMr]; subst. simpl in NMe.
    cbn [keyword_pass best_capped snd].
    fold (keyword_count message info).
    assert (K : keyword_count message info <= 6).
    { destruct OKe as (_ & _ & L). simpl in L.
      unfold keyword_count.
      pose proof (keyword_matches_le (Info.keywords info) (lower message)).
      lia. }
    destruct (0 <? keyword_count message info) eqn:Pos.
    + rewrite (calculate_confidence_keywords _ _ _ OKe NMe), Pos.
      cbn [bind]. apply Nat.ltb_lt in Pos.
      rewrite keyword_confidence_capped by lia.
      rewrite capped_confidence_ltb by (auto using capped_le).
      destruct (n <? capped (keyword_count message info)).
      * apply IH; auto using capped_le.
      * apply IH; auto.
    + apply Nat.ltb_ge in Pos.
      replace (keyword_count message info) with 0 by lia.
      change (capped 0) with 0.
      rewrite (proj2 (Nat.ltb_ge n 0)) by lia. apply IH; auto.
Qed.

Lemma best_capped_le items message : forall best,
  snd best <= 3 -> snd (best_capped items message best) <= 3.
Proof.
  induction items as [|[ty info] rest IH]; intros best H; simpl; auto.
  destruct (snd best <? capped (keyword_count message info));
    apply IH; auto. simpl. apply capped_le.
Qed.

(** [best_capped] keeps the start when no entry beats it, and otherwise
    yields the earliest entry whose capped count is the highest. *)
Lemma best_capped_spec message items : forall name n,
  let score := fun e : string * Info.t =>
                 capped (keyword_count message (snd e)) in
  (best_capped items message (name, n) = (name, n)
   /\ Forall (fun e => score e <= n) items)
  \/ exists pre ty info post,
       items = pre ++ (ty, info) :: post
       /\ best_capped items message (name, n) = (ty, score (ty, info))
       /\ n < score (ty, info)
       /\ Forall (fun e => score e < score (ty, info)) pre
       /\ Forall (fun e => score e <= score (ty, info)) post.
Proof.
  intros name n score. revert name n.
  induction items as [|[ty info] rest IH]; intros name n.
  - left. split; [reflexivity | constructor].
  - cbn [best_capped snd].
    change (capped (keyword_count message info)) with (score (ty, info)).
    destruct (n <? score (ty, info)) eqn:Lt.
    + apply Nat.ltb_lt in Lt. right.
      destruct (IH ty (score (ty, info)))
        as [[E F] | (pre & ty' & info' & post & -> & E & Lt' & Fp & Fq)].
      * exists [], ty, info, rest.
        split; [reflexivity|]. split; [exact E|]. split; [exact Lt|].
        split; [constructor | exact F].
      * exists ((ty, info) :: pre), ty', info', post.
        split; [reflexivity|]. split; [exact E|]. split; [lia|].
        split; [constructor; [exact Lt' | exact Fp] | exact Fq].
    + apply Nat.ltb_ge in Lt.
      destruct (IH name n)
        as [[E F] | (pre & ty' & info' & post & -> & E & Lt' & Fp & Fq)].
      * left. split; [exact E | constructor; [exact Lt | exact F]].
      * right. exists ((ty, info) :: pre), ty', info', post.
        split; [reflexivity|]. split; [exact E|]. split; [exact Lt'|].
        split; [constructor; [lia | exact Fp] | exact Fq].
Qed.

End Fallback.

(* ===================================================================== *)
(** ** The two passes of [classify_commit] *)
(* ===================================================================== *)

Section Classify.

Implicit Types (raw s : str) (ty : string).

(** The conventional-format pass. *)
Lemma classify_commit_conventional raw ty :
  In ty category_ids ->
  re_match (conventional ty) (strip raw) = true ->
  classify_commit raw
  = Ok (Cls.mk ty (extract_scope (strip raw)) (sub_header (strip raw))
          0.95%float).
Proof.
  intros I M. unfold classify_commit.
  destruct (strip raw) as [|c t] eqn:S.
  - vm_compute in I. apply conventional_shape in M as (n & o & r & E & _).
    destruct n; destruct o; discriminate.
  - now rewrite (conventional_pass_match ty (c :: t) I M).
Qed.

(** The keyword-fallback pass. *)
Lemma classify_commit_fallback raw :
  strip raw <> [] ->
  (forall ty, In ty category_ids ->
              re_match (conventional ty) (strip raw) = false) ->
  classify_commit raw
  = Ok (Cls.mk
          (fst (best_capped COMMIT_TYPES (strip raw) ("chore"%string, 0)))
          None (strip raw)
          (PyFloat.max
             (capped_confidence
                (snd (best_capped COMMIT_TYPES (strip raw) ("chore"%string, 0))))
             0.5%float)).
Proof.
  intros NE NM. unfold classify_commit.
  destruct (strip raw) as [|c t] eqn:S; [contradiction|].
  rewrite (proj2 (no_conventional_iff (c :: t)) NM).
  change 0.0%float with (capped_confidence 0).
  rewrite keyword_pass_capped; auto using table_ok.
  apply Forall_forall. intros e I. apply NM. exact (entry_category _ I).
Qed.

(** Every non-empty trimmed message takes one of the two passes. *)
Lemma classify_commit_cases raw :
  (exists ty, In ty category_ids
              /\ re_match (conventional ty) (strip raw) = true)
  \/ (forall ty, In ty category_ids ->
                 re_match (conventional ty) (strip raw) = false).
Proof.
  destruct (conventional_pass COMMIT_TYPES (strip raw)) as [cls|] eqn:P.
  - left. destruct (conventional_pass_Some _ _ _ P) as (info & I & M & _).
    destruct (proj1 (Forall_forall _ _) table_ok _ I) as (_ & Pat & _).
    simpl in Pat. rewrite Pat in M.
    exists (Cls.type cls). split; auto. exact (entry_category _ I).
  - right. now apply no_conventional_iff.
Qed.

End Classify.

(* ===================================================================== *)
(** ** Descriptions *)
(* ===================================================================== *)

Section Descriptions.

Implicit Types (raw s t u v w a b : str) (c d : ascii) (ty : string).

(** A spelling of a category identifier is not empty and has no colon. *)
Lemma key_spelling ty n :
  In ty category_ids -> lower n = lower (py ty) ->
  n <> [] /\ ~ In ":"%char n.
Proof.
  intros I E. split.
  - intros ->. cbv [category_ids COMMIT_TYPES map fst] in I.
    repeat (destruct I as [<- | I]); try contradiction; discriminate.
  - intros C. apply (in_map lower_char) in C. fold (lower n) in C.
    rewrite E in C. cbv [category_ids COMMIT_TYPES map fst] in I.
    repeat (destruct I as [<- | I]); try contradiction;
      vm_compute in C; intuition discriminate.
Qed.

(** The end of a trimmed text, stripped on the left, is trimmed. *)
Lemma trimmed_suffix s u b :
  trimmed s -> s = u ++ b -> b <> [] ->
  lstrip b <> [] /\ trimmed (lstrip b) /\ strip b = lstrip b.
Proof.
  intros [_ Last] -> B.
  destruct (lstrip_space_prefix b) as (w & E & W).
  assert (T : forall t c, lstrip b = t ++ [c] -> isspace c = false).
  { intros t c Et. apply (Last (u ++ w ++ t) c).
    rewrite E, Et, <- !app_assoc. reflexivity. }
  assert (NE : lstrip b <> []).
  { intros N. destruct (last_exists b B) as (t & c & Eb).
    assert (Sc : isspace c = false) by (apply (Last (u ++ t) c);
      rewrite Eb, <- app_assoc; reflexivity).
    apply lstrip_nil in N. rewrite Eb, forallb_app in N. simpl in N.
    rewrite Sc, andb_false_r in N. discriminate. }
  repeat split; auto.
  - intros c t Ec. exact (lstrip_head _ _ _ Ec).
  - unfold strip. now apply rstrip_id.
Qed.

(** The description of a conventional message: what follows its first
    colon, stripped. *)
Lemma conventional_description ty s :
  In ty category_ids -> trimmed s ->
  re_match (conventional ty) s = true ->
  exists a b,
    s = a ++ ":"%char :: b /\ a <> [] /\ ~ In ":"%char a /\ b <> []
    /\ sub_header s = strip b /\ strip b <> [] /\ trimmed (strip b).
Proof.
  intros I T M.
  apply conventional_shape in M as (n & o & rest & E & N & _ & R).
  destruct (key_spelling ty n I N) as [Nn Nc].
  destruct (first_colon (n ++ o) rest) as (a & z & Ea & Na & x' & X).
  rewrite <- app_assoc in Ea. rewrite <- E in Ea.
  assert (A : a <> []).
  { intros ->. destruct n as [|c n]; [contradiction|].
    simpl in X. subst x'. rewrite E in Ea. simpl in Ea.
    assert (C : c = ":"%char) by congruence.
    apply Nc. left. exact C. }
  assert (B : z ++ rest <> []).
  { intros Z. apply app_eq_nil in Z as [_ Z]. contradiction. }
  destruct (trimmed_suffix s (a ++ [":"%char]) (z ++ rest) T) as (NE & Tb & Sb); auto.
  { rewrite <- app_assoc. exact Ea. }
  exists a, (z ++ rest). rewrite Sb. repeat split; auto.
  - rewrite Ea at 1. now apply sub_header_colon.
  - apply Tb.
  - apply Tb.
Qed.

(** A text that starts with a word has a first word. *)
Lemma split_from_word s : forall w, w <> [] -> split_from s w <> [].
Proof.
  induction s as [|c t IH]; intros w W; simpl.
  - destruct w; [contradiction | discriminate].
  - destruct (isspace c).
    + destruct w; [contradiction | discriminate].
    + apply IH. discriminate.
Qed.

Lemma split_first s :
  s <> [] -> trimmed s -> exists w, getindex (split s) 0 = Ok w.
Proof.
  intros NE [Hd _]. destruct s as [|c t]; [contradiction|].
  unfold split, getindex. simpl. rewrite (Hd c t eq_refl).
  pose proof (split_from_word t [c]) as W.
  destruct (split_from t [c]) as [|w ws]; simpl; eauto.
  exfalso. apply W; [discriminate | reflexivity].
Qed.

End Descriptions.

(* ===================================================================== *)
(** ** Suggestions and batches *)
(* ===================================================================== *)

Section Suggestions.

Implicit Types (raw message s : str) (ty : string) (cls : Cls.t).

Lemma Ok_inj (A : Type) (x y : A) : Ok x = Ok y -> x = y.
Proof. intros E. now injection E. Qed.

Lemma suggest_format_neq ty s :
  suggest_format ty s <> suggest_details
  /\ suggest_format ty s <> suggest_shorter.
Proof. split; intros E; vm_compute in E; discriminate. Qed.

Lemma suggest_distinct :
  suggest_details <> suggest_shorter
  /\ suggest_imperative <> suggest_details
  /\ suggest_imperative <> suggest_shorter
  /\ suggest_lowercase <> suggest_details
  /\ suggest_lowercase <> suggest_shorter.
Proof. repeat split; intros E; vm_compute in E; discriminate. Qed.

(** Membership in a list to which a suggestion may have been appended. *)
Lemma in_appended (b : bool) (x y : str) (l : list str) :
  In x (if b then l ++ [y] else l) <-> In x l \/ (b = true /\ y = x).
Proof.
  destruct b; [rewrite in_app_iff; simpl|]; intuition discriminate.
Qed.

(** The two length checks of [generate_suggestions] read the length of the
    message it is given. *)
Lemma generate_suggestions_length message cls info :
  getitem COMMIT_TYPES (Cls.type cls) = Ok info ->
  (Cls.description cls = []
   \/ exists w, getindex (split (Cls.description cls)) 0 = Ok w) ->
  exists l,
    generate_suggestions message cls = Ok l
    /\ (In suggest_details l <-> List.length message < 10)
    /\ (In suggest_shorter l <-> 100 < List.length message).
Proof.
  intros G W. unfold generate_suggestions. rewrite G. cbn [bind].
  destruct (suggest_format_neq (Cls.type cls) (Cls.description cls)) as [F1 F2].
  destruct suggest_distinct as (D1 & D2 & D3 & D4 & D5).
  assert (FW : exists fw,
    match Cls.description cls with
    | [] => Ok []
    | _ :: _ =>
        w <- getindex (split (Cls.description cls)) 0 ;; Ok (lower w)
    end = Ok fw).
  { destruct W as [-> | (w & ->)]; [eauto|].
    destruct (Cls.description cls); cbn [bind]; eauto. }
  destruct FW as (fw & ->). cbn [bind].
  eexists. split; [reflexivity|].
  rewrite <- Nat.ltb_lt, <- (Nat.ltb_lt 100).
  destruct (Cls.description cls) as [|c t];
    [| destruct (isupper c)];
    rewrite ?in_app_iff, ?in_appended; cbn [In app];
    intuition congruence.
Qed.

(** [split] finds a first word in the description of every
    classification, so [generate_suggestions] does not raise on it. *)
Lemma classify_commit_describes raw cls :
  classify_commit raw = Ok cls ->
  (exists info, getitem COMMIT_TYPES (Cls.type cls) = Ok info)
  /\ Cls.description cls <> []
  /\ trimmed (Cls.description cls).
Proof.
  intros C.
  assert (NE : strip raw <> []).
  { intros E. unfold classify_commit in C. rewrite E in C. discriminate. }
  destruct (classify_commit_cases raw) as [(ty & I & M) | NM].
  - rewrite (classify_commit_conventional raw ty I M) in C.
    apply Ok_inj in C. subst cls. cbn [Cls.type Cls.description].
    destruct (conventional_description ty (strip raw) I (strip_trimmed raw) M)
      as (a & b & _ & _ & _ & _ & -> & NEb & Tb).
    destruct (category_entry ty I) as (info & _ & G & _).
    repeat split; eauto; apply Tb.
  - rewrite (classify_commit_fallback raw NE NM) in C.
    apply Ok_inj in C. subst cls. cbn [Cls.type Cls.description].
    split; [| split; [exact NE | apply strip_trimmed]].
    destruct (best_capped_spec (strip raw) COMMIT_TYPES "chore"%string 0)
      as [[-> _] | (pre & ty & info & post & E & -> & _)].
    + eexists. reflexivity.
    + cbn [fst]. exists info.
      assert (I : In (ty, info) COMMIT_TYPES)
        by (rewrite E; apply in_elt).
      exact (proj1 (proj1 (Forall_forall _ _) table_ok _ I)).
Qed.

(** The body shared by the two endpoints succeeds exactly on the messages
    that [classify_commit] accepts. *)
Lemma classify_one_Ok now raw cls :
  classify_commit raw = Ok cls ->
  exists l,
    generate_suggestions raw cls = Ok l
    /\ classify_one now raw
       = Ok (ClassificationResult.mk raw (Cls.type cls) (Cls.scope cls)
               (Cls.description cls) (Cls.confidence cls) now l).
Proof.
  intros C. destruct (classify_commit_describes raw cls C) as ((info & G) & NE & T).
  destruct (split_first _ NE T) as (w & W).
  destruct (generate_suggestions_length raw cls info G (or_intror (ex_intro _ w W)))
    as (l & L & _).
  exists l. split; auto. unfold classify_one. rewrite C. cbn [bind].
  rewrite L. reflexivity.
Qed.

Lemma classify_one_Raise now raw e :
  classify_commit raw = Raise e -> classify_one now raw = Raise e.
Proof. intros C. unfold classify_one. now rewrite C. Qed.

(** The loop of [classify_batch] appends one record per message. *)
Lemma batch_loop_spec clock : forall messages i results,
  List.length (batch_loop clock i messages results)
  = List.length results + List.length messages
  /\ (forall j, j < List.length results ->
        nth_error (batch_loop clock i messages results) j
        = nth_error results j)
  /\ (forall j msg, nth_error messages j = Some msg ->
        nth_error (batch_loop clock i messages results)
          (List.length results + j)
        = Some match classify_one (clock (i + j)) msg with
               | Ok r => Classified r
               | Raise e => Failed msg (StrOf e)
               end).
Proof.
  induction messages as [|m rest IH]; intros i results.
  - simpl. repeat split; auto. intros [|j] msg; discriminate.
  - cbn [batch_loop].
    set (rec := match classify_one (clock i) m with
                | Ok r => Classified r
                | Raise e => Failed m (StrOf e)
                end).
    assert (E : match classify_one (clock i) m with
                | Ok r => results ++ [Classified r]
                | Raise e => results ++ [Failed m (StrOf e)]
                end = results ++ [rec])
      by (unfold rec; destruct (classify_one (clock i) m); reflexivity).
    rewrite E. clear E.
    destruct (IH (S i) (results ++ [rec])) as (L & Old & New).
    rewrite length_app in *. simpl in *. repeat split.
    + lia.
    + intros j Hj. rewrite Old by lia. apply nth_error_app1. exact Hj.
    + intros [|j] msg Hm; simpl in Hm.
      * injection Hm as <-. rewrite !Nat.add_0_r, Old by lia.
        rewrite nth_error_app2, Nat.sub_diag by lia. reflexivity.
      * replace (List.length results + S j)
          with (List.length results + 1 + j) by lia.
        rewrite (New j msg Hm).
        replace (i + S j) with (S (i + j)) by lia. reflexivity.
Qed.

End Suggestions.

(* ===================================================================== *)
(** ** Properties of the specification *)
(* ===================================================================== *)

Lemma no_conventional_any s :
  re_match any_conventional s = false
  <-> forall ty, In ty category_ids -> re_match (conventional ty) s = false.
Proof.
  split.
  - intros A ty I. destruct (re_match (conventional ty) s) eqn:M; auto.
    rewrite (proj2 (any_conventional_iff s)) in A; eauto.
  - intros NM. destruct (re_match any_conventional s) eqn:A; auto.
    apply any_conventional_iff in A as (ty & I & M).
    rewrite (NM ty I) in M. discriminate.
Qed.

(** C1, as stated, fails: the input "feat:  " is not empty after trimming
    and matches the pattern as it is (the [\s*] takes one blank and the
    [.+] the other), but [classify_commit] trims it to "feat:", which no
    pattern matches, and answers [chore] with confidence 0.5. *)
Lemma conventional_untrimmed_counterexample :
  strip (py "feat:  ") <> []
  /\ re_match any_conventional (py "feat:  ") = true
  /\ classify_commit (py "feat:  ")
     = Ok (Cls.mk "chore" None (py "feat:") 0.5%float)
  /\ ~ (exists cls, classify_commit (py "feat:  ") = Ok cls
                    /\ Cls.type cls = "feat"%string).
Proof.
  assert (C : classify_commit (py "feat:  ")
              = Ok (Cls.mk "chore" None (py "feat:") 0.5%float))
    by (vm_compute; reflexivity).
  split; [vm_compute; discriminate|].
  split; [vm_compute; reflexivity|].
  split; [exact C|].
  intros (cls & E & T). rewrite C in E. apply Ok_inj in E. subst cls.
  discriminate T.
Qed.

(** C1, amended: when the trimmed input is not empty and matches the
    pattern of the specification, exactly one category has a matching
    pattern; [classify_commit] returns it with confidence 0.95, and the
    description is what follows the first colon of the trimmed input,
    stripped of whitespace. *)
Theorem conventional_format_classification raw :
  strip raw <> [] ->
  re_match any_conventional (strip raw) = true ->
  exists ty a b,
    In ty category_ids
    /\ re_match (conventional ty) (strip raw) = true
    /\ (forall ty', In ty' category_ids ->
                    re_match (conventional ty') (strip raw) = true -> ty' = ty)
    /\ strip raw = a ++ ":"%char :: b /\ ~ In ":"%char a
    /\ classify_commit raw
       = Ok (Cls.mk ty (extract_scope (strip raw)) (strip b) 0.95%float).
Proof.
  intros _ A. apply any_conventional_iff in A as (ty & I & M).
  destruct (conventional_description ty (strip raw) I (strip_trimmed raw) M)
    as (a & b & E & _ & Na & _ & D & _).
  exists ty, a, b. repeat split; auto.
  - intros ty' I' M'. exact (conventional_unique ty' ty _ I' I M' M).
  - rewrite <- D. now apply classify_commit_conventional.
Qed.

Lemma conventional_format_classification_witness :
  exists ty a b,
    In ty category_ids
    /\ re_match (conventional ty) (strip (py "  Fix(api): resolve CORS ")) = true
    /\ (forall ty', In ty' category_ids ->
          re_match (conventional ty') (strip (py "  Fix(api): resolve CORS ")) = true ->
          ty' = ty)
    /\ strip (py "  Fix(api): resolve CORS ") = a ++ ":"%char :: b
    /\ ~ In ":"%char a
    /\ classify_commit (py "  Fix(api): resolve CORS ")
       = Ok (Cls.mk ty (extract_scope (strip (py "  Fix(api): resolve CORS ")))
               (strip b) 0.95%float).
Proof.
  apply (conventional_format_classification (py "  Fix(api): resolve CORS ")).
  - vm_compute. discriminate.
  - vm_compute. reflexivity.
Defined.

(** C2, as stated, fails: in "add new implement fix bug resolve correct"
    three keywords of [feat] and four of [fix] occur; both reach the
    confidence 0.9 and the earlier [feat] is kept, although [fix] has the
    strictly highest count. *)
Lemma keyword_count_counterexample :
  strip (py "add new implement fix bug resolve correct")
  = py "add new implement fix bug resolve correct"
  /\ re_match any_conventional (py "add new implement fix bug resolve correct")
     = false
  /\ map (fun e => (fst e,
                    keyword_count
                      (py "add new implement fix bug resolve correct") (snd e)))
       COMMIT_TYPES
     = [("feat", 3); ("fix", 4); ("docs", 0); ("style", 0); ("refactor", 0);
        ("perf", 0); ("test", 0); ("build", 0); ("ci", 0); ("chore", 0);
        ("revert", 0)]%string
  /\ classify_commit (py "add new implement fix bug resolve correct")
     = Ok (Cls.mk "feat" None
             (py "add new implement fix bug resolve correct") 0.9%float)
  /\ exists cls e,
       classify_commit (py "add new implement fix bug resolve correct")
       = Ok cls
       /\ In e COMMIT_TYPES
       /\ forall info,
            In (Cls.type cls, info) COMMIT_TYPES ->
            keyword_count
              (py "add new implement fix bug resolve correct") info
            < keyword_count
                (py "add new implement fix bug resolve correct") (snd e).
Proof.
  do 4 (split; [vm_compute; reflexivity|]).
  eexists. exists (nth 1 COMMIT_TYPES ("chore"%string, Info.mk Eps "" [])).
  split; [vm_compute; reflexivity|].
  split; [cbv [COMMIT_TYPES nth In]; tauto|].
  cbn [Cls.type]. intros info I. cbv [COMMIT_TYPES In] in I.
  repeat (destruct I as [I | I]); try contradiction; try discriminate I.
  injection I as <-. vm_compute. lia.
Qed.

(** C2, amended: for a trimmed non-empty message that matches no
    conventional pattern, [classify_commit] returns the earliest category,
    in the order of the table, whose keyword count capped at three (that
    is, whose confidence min(0.6 + 0.1 * count, 0.9)) is the highest; it
    returns [chore] when no keyword of any category occurs.  When no count
    exceeds three this is the earliest category of highest count. *)
Theorem keyword_fallback_category raw :
  strip raw <> [] ->
  re_match any_conventional (strip raw) = false ->
  exists cls,
    classify_commit raw = Ok cls
    /\ ((forall e, In e COMMIT_TYPES ->
                   keyword_count (strip raw) (snd e) = 0) ->
        Cls.type cls = "chore"%string)
    /\ ((exists e, In e COMMIT_TYPES
                   /\ 0 < keyword_count (strip raw) (snd e)) ->
        exists pre info post,
          COMMIT_TYPES = pre ++ (Cls.type cls, info) :: post
          /\ 0 < keyword_count (strip raw) info
          /\ Forall (fun e => capped (keyword_count (strip raw) (snd e))
                              < capped (keyword_count (strip raw) info)) pre
          /\ Forall (fun e => capped (keyword_count (strip raw) (snd e))
                              <= capped (keyword_count (strip raw) info)) post
          /\ ((forall e, In e COMMIT_TYPES ->
                         keyword_count (strip raw) (snd e) <= 3) ->
              Forall (fun e => keyword_count (strip raw) (snd e)
                               < keyword_count (strip raw) info) pre
              /\ Forall (fun e => keyword_count (strip raw) (snd e)
                                  <= keyword_count (strip raw) info) post)).
Proof.
  intros NE NA0. pose proof (proj1 (no_conventional_any _) NA0) as NA.
  eexists. split; [exact (classify_commit_fallback raw NE NA)|].
  cbn [Cls.type].
  destruct (best_capped_spec (strip raw) COMMIT_TYPES "chore"%string 0)
    as [[-> F] | (pre & ty & info & post & E & -> & Pos & Fp & Fq)];
    cbn [fst snd] in *.
  - split; [reflexivity|]. intros (e & I & K). exfalso.
    pose proof (proj1 (Forall_forall _ _) F e I) as Le. cbv beta in Le.
    unfold capped in Le. lia.
  - split.
    + intros Z. exfalso.
      assert (I : In (ty, info) COMMIT_TYPES) by (rewrite E; apply in_elt).
      specialize (Z _ I). cbn [snd] in Z. rewrite Z in Pos.
      unfold capped in Pos. simpl in Pos. lia.
    + intros _. exists pre, info, post.
      split; [exact E|]. split; [unfold capped in Pos; lia|].
      split; [exact Fp|]. split; [exact Fq|].
      intros Small.
      assert (Id : forall e, In e COMMIT_TYPES ->
                capped (keyword_count (strip raw) (snd e))
                = keyword_count (strip raw) (snd e)).
      { intros e I. specialize (Small e I). unfold capped. lia. }
      assert (Ii : capped (keyword_count (strip raw) info)
                   = keyword_count (strip raw) info).
      { apply (Id (ty, info)). rewrite E. apply in_elt. }
      split; apply Forall_forall; intros e I.
      * pose proof (proj1 (Forall_forall _ _) Fp e I) as H. cbv beta in H.
        rewrite Ii, Id in H; auto. rewrite E. apply in_or_app. now left.
      * pose proof (proj1 (Forall_forall _ _) Fq e I) as H. cbv beta in H.
        rewrite Ii, Id in H; auto. rewrite E. apply in_or_app. right. now right.
Qed.

Lemma keyword_fallback_category_witness :
  exists cls,
    classify_commit (py "added new feature") = Ok cls
    /\ Cls.type cls = "feat"%string.
Proof.
  destruct (keyword_fallback_category (py "added new feature"))
    as (cls & C & _ & _).
  - vm_compute. discriminate.
  - vm_compute. reflexivity.
  - exists cls. split; [exact C|].
    vm_compute in C. injection C as <-. reflexivity.
Defined.

Lemma classify_commit_total raw :
  strip raw <> [] -> exists cls, classify_commit raw = Ok cls.
Proof.
  intros NE. destruct (classify_commit_cases raw) as [(ty & I & M) | NM].
  - eexists. exact (classify_commit_conventional raw ty I M).
  - eexists. exact (classify_commit_fallback raw NE NM).
Qed.

Lemma classify_commit_empty raw :
  strip raw = [] ->
  classify_commit raw
  = Raise (HTTPException 400 (Text "Empty commit message")).
Proof. intros E. unfold classify_commit. now rewrite E. Qed.

(** C3: for an input that is not empty after trimming, [classify_commit]
    returns one classification; its category is a key of the table and its
    confidence lies between 0.5 and 0.95. *)
Theorem classification_invariant raw :
  strip raw <> [] ->
  exists cls,
    classify_commit raw = Ok cls
    /\ (forall cls', classify_commit raw = Ok cls' -> cls' = cls)
    /\ In (Cls.type cls) category_ids
    /\ PrimFloat.leb 0.5 (Cls.confidence cls) = true
    /\ PrimFloat.leb (Cls.confidence cls) 0.95 = true.
Proof.
  intros NE. destruct (classify_commit_cases raw) as [(ty & I & M) | NM].
  - eexists. split; [exact (classify_commit_conventional raw ty I M)|].
    split.
    { intros cls' C. rewrite (classify_commit_conventional raw ty I M) in C.
      apply Ok_inj in C. now subst. }
    cbn [Cls.type Cls.confidence]. split; [exact I|].
    split; vm_compute; reflexivity.
  - eexists. split; [exact (classify_commit_fallback raw NE NM)|].
    split.
    { intros cls' C. rewrite (classify_commit_fallback raw NE NM) in C.
      apply Ok_inj in C. now subst. }
    cbn [Cls.type Cls.confidence]. split.
    + destruct (best_capped_spec (strip raw) COMMIT_TYPES "chore"%string 0)
        as [[-> _] | (pre & ty & info & post & E & -> & _)]; cbn [fst].
      * cbv [category_ids COMMIT_TYPES map fst]. simpl. tauto.
      * apply (entry_category (ty, info)). rewrite E. apply in_elt.
    + assert (B : snd (best_capped COMMIT_TYPES (strip raw) ("chore"%string, 0))
                  <= 3)
        by (apply (best_capped_le COMMIT_TYPES (strip raw) ("chore"%string, 0));
            simpl; lia).
      destruct (capped_confidence_range _ B) as (Lo & _ & Hi). auto.
Qed.

Lemma classification_invariant_witness :
  exists cls,
    classify_commit (py "xyz random text") = Ok cls
    /\ (forall cls', classify_commit (py "xyz random text") = Ok cls' ->
                     cls' = cls)
    /\ In (Cls.type cls) category_ids
    /\ PrimFloat.leb 0.5 (Cls.confidence cls) = true
    /\ PrimFloat.leb (Cls.confidence cls) 0.95 = true.
Proof.
  apply (classification_invariant (py "xyz random text")).
  vm_compute. discriminate.
Defined.

(** C4: [classify_commit] raises exactly when the input is empty after
    trimming, that is, when it consists of whitespace only; the exception
    is then the one for an empty message, as for "" and "   "; on every
    other input it returns a classification. *)
Theorem empty_input_error raw :
  (classify_commit raw
   = Raise (HTTPException 400 (Text "Empty commit message"))
   <-> strip raw = [])
  /\ ((exists e, classify_commit raw = Raise e) <-> strip raw = [])
  /\ ((exists cls, classify_commit raw = Ok cls) <-> strip raw <> [])
  /\ (strip raw = [] <-> forallb isspace raw = true)
  /\ classify_commit (py "")
     = Raise (HTTPException 400 (Text "Empty commit message"))
  /\ classify_commit (py "   ")
     = Raise (HTTPException 400 (Text "Empty commit message")).
Proof.
  assert (Empty := classify_commit_empty raw).
  assert (Total := classify_commit_total raw).
  assert (Dec : strip raw = [] \/ strip raw <> [])
    by (destruct (strip raw); [left | right]; congruence).
  split; [|split; [|split; [|split; [apply strip_nil | split; reflexivity]]]].
  - split; auto. intros R. destruct Dec as [E' | NE]; auto.
    destruct (Total NE) as (cls & C). congruence.
  - split; [| eauto]. intros (e & R). destruct Dec as [E' | NE]; auto.
    destruct (Total NE) as (cls & C). congruence.
  - split; auto. intros (cls & C) E. rewrite (Empty E) in C. discriminate.
Qed.

(** C5: when a conventional pattern matches the trimmed message, the scope
    is the first parenthesised group found anywhere in the message by the
    search for [\(([^)]+)\)] (the same group in the message as sent and in
    the trimmed one), or none when there is no such group; on the keyword
    fallback the scope is none and the description is the trimmed
    message. *)
Theorem scope_of_classification raw :
  strip raw <> [] ->
  exists cls,
    classify_commit raw = Ok cls
    /\ (re_match any_conventional (strip raw) = true ->
        Cls.scope cls = extract_scope (strip raw)
        /\ first_paren_group (strip raw) (Cls.scope cls)
        /\ first_paren_group raw (Cls.scope cls))
    /\ (re_match any_conventional (strip raw) = false ->
        Cls.scope cls = None /\ Cls.description cls = strip raw).
Proof.
  intros NE. destruct (classify_commit_cases raw) as [(ty & I & M) | NM].
  - eexists. split; [exact (classify_commit_conventional raw ty I M)|].
    cbn [Cls.scope Cls.description]. split.
    + intros _. split; [reflexivity|].
      split; [apply extract_scope_first|].
      rewrite extract_scope_strip. apply extract_scope_first.
    + intros A. rewrite (proj1 (no_conventional_any _) A ty I) in M.
      discriminate.
  - eexists. split; [exact (classify_commit_fallback raw NE NM)|].
    cbn [Cls.scope Cls.description]. split.
    + intros A. rewrite (proj2 (no_conventional_any _) NM) in A. discriminate.
    + intros _. split; reflexivity.
Qed.

Lemma scope_of_classification_witness :
  exists cls,
    classify_commit (py "fix: drop (legacy) flag (v2)") = Ok cls
    /\ Cls.scope cls = Some (py "legacy").
Proof.
  destruct (scope_of_classification (py "fix: drop (legacy) flag (v2)"))
    as (cls & C & S & _).
  - vm_compute. discriminate.
  - exists cls. split; [exact C|].
    destruct S as (S & _); [vm_compute; reflexivity|].
    rewrite S. vm_compute. reflexivity.
Defined.

(** C9: on the keyword fallback no conventional pattern matches the
    trimmed message, so [calculate_confidence] never takes its 0.95 branch
    there: for every category it returns the keyword formula, which is at
    most 0.9, and so is the confidence of the classification. *)
Theorem fallback_confidence_bound raw :
  strip raw <> [] ->
  re_match any_conventional (strip raw) = false ->
  (forall ty info, In (ty, info) COMMIT_TYPES ->
     re_match (Info.pattern info) (strip raw) = false
     /\ exists x,
          calculate_confidence (strip raw) ty = Ok x
          /\ x = (if 0 <? keyword_count (strip raw) info
                  then keyword_confidence (keyword_count (strip raw) info)
                  else 0.5%float)
          /\ PrimFloat.leb x 0.9 = true
          /\ x <> 0.95%float)
  /\ exists cls,
       classify_commit raw = Ok cls
       /\ PrimFloat.leb (Cls.confidence cls) 0.9 = true.
Proof.
  intros NE A. pose proof (proj1 (no_conventional_any _) A) as NM. split.
  - intros ty info I.
    pose proof (proj1 (Forall_forall _ _) table_ok _ I) as OK.
    pose proof (NM ty (entry_category _ I)) as M.
    destruct OK as (G & P & L). cbn [fst snd] in *. split.
    + now rewrite P.
    + eexists. split;
        [exact (calculate_confidence_keywords _ _ _ (conj G (conj P L)) M)|].
      split; [reflexivity|].
      assert (Le : PrimFloat.leb
                (if 0 <? keyword_count (strip raw) info
                 then keyword_confidence (keyword_count (strip raw) info)
                 else 0.5) 0.9 = true).
      { apply keyword_formula_le. unfold keyword_count.
        pose proof (keyword_matches_le (Info.keywords info) (lower (strip raw))).
        lia. }
      split; [exact Le | exact (below_conventional _ Le)].
  - eexists. split; [exact (classify_commit_fallback raw NE NM)|].
    cbn [Cls.confidence].
    assert (B : snd (best_capped COMMIT_TYPES (strip raw) ("chore"%string, 0))
                <= 3)
      by (apply (best_capped_le COMMIT_TYPES (strip raw) ("chore"%string, 0));
          simpl; lia).
    destruct (capped_confidence_range _ B) as (_ & Mid & _). exact Mid.
Qed.

Lemma fallback_confidence_bound_witness :
  exists cls,
    classify_commit (py "fixed the bug in payment module") = Ok cls
    /\ PrimFloat.leb (Cls.confidence cls) 0.9 = true.
Proof.
  apply (fallback_confidence_bound (py "fixed the bug in payment module")).
  - vm_compute. discriminate.
  - vm_compute. reflexivity.
Defined.

(** C10: for an input that is not empty after trimming, the description of
    the classification is not empty and has no leading or trailing
    whitespace; on the fallback it is the trimmed message, on the
    conventional path it is what follows the first colon after the greedy
    strip of whitespace.  In particular it has a first word. *)
Theorem description_trimmed raw :
  strip raw <> [] ->
  exists cls,
    classify_commit raw = Ok cls
    /\ Cls.description cls <> []
    /\ trimmed (Cls.description cls)
    /\ (re_match any_conventional (strip raw) = false ->
        Cls.description cls = strip raw)
    /\ (re_match any_conventional (strip raw) = true ->
        exists a b,
          strip raw = a ++ ":"%char :: b /\ ~ In ":"%char a /\ b <> []
          /\ Cls.description cls = lstrip b)
    /\ exists w, getindex (split (Cls.description cls)) 0 = Ok w.
Proof.
  intros NE. destruct (classify_commit_total raw NE) as (cls & C).
  destruct (classify_commit_describes raw cls C) as (_ & D & T).
  exists cls. split; [exact C|]. split; [exact D|]. split; [exact T|].
  split; [|split; [|exact (split_first _ D T)]].
  - intros A. pose proof (proj1 (no_conventional_any _) A) as NM.
    rewrite (classify_commit_fallback raw NE NM) in C.
    apply Ok_inj in C. now subst cls.
  - intros A. apply any_conventional_iff in A as (ty & I & M).
    rewrite (classify_commit_conventional raw ty I M) in C.
    apply Ok_inj in C. subst cls. cbn [Cls.description].
    destruct (conventional_description ty (strip raw) I (strip_trimmed raw) M)
      as (a & b & E & Ne & Na & Nb & _).
    exists a, b. repeat split; auto.
    rewrite E at 1. now apply sub_header_colon.
Qed.

Lemma description_trimmed_witness :
  exists cls,
    classify_commit (py "feat(a:b):   add  login ") = Ok cls
    /\ Cls.description cls = py "b):   add  login".
Proof.
  destruct (description_trimmed (py "feat(a:b):   add  login "))
    as (cls & C & _).
  - vm_compute. discriminate.
  - exists cls. split; [exact C|].
    vm_compute in C. injection C as <-. reflexivity.
Defined.

(** C6, as stated, fails: [generate_suggestions] is given the message as
    it was sent, not the trimmed one.  "fix: a" followed by five blanks has
    a trimmed length of 6 but gets no "add more details" suggestion, and
    followed by 95 blanks it has the same trimmed length but gets the
    "under 72 characters" suggestion. *)
Lemma suggestion_length_counterexample :
  (List.length (strip (py "fix: a     ")) < 10
   /\ exists r,
        classify_message [] (py "fix: a     ") = Ok r
        /\ ~ In suggest_details (ClassificationResult.suggestions r))
  /\ (~ 100 < List.length (strip (py "fix: a" ++ repeat " "%char 95))
      /\ exists r,
           classify_message [] (py "fix: a" ++ repeat " "%char 95) = Ok r
           /\ In suggest_shorter (ClassificationResult.suggestions r)).
Proof.
  split; split.
  - vm_compute. lia.
  - eexists. split; [vm_compute; reflexivity|]. simpl. tauto.
  - vm_compute. lia.
  - eexists. split; [vm_compute; reflexivity|]. simpl. tauto.
Qed.

(** C6, amended: for every message that is not empty after trimming, the
    suggestions contain "add more details" exactly when the message as
    sent (untrimmed) has fewer than 10 characters, and "keep the summary
    under 72 characters" exactly when it has more than 100. *)
Theorem suggestion_length_checks now raw :
  strip raw <> [] ->
  exists r,
    classify_message now raw = Ok r
    /\ (In suggest_details (ClassificationResult.suggestions r)
        <-> List.length raw < 10)
    /\ (In suggest_shorter (ClassificationResult.suggestions r)
        <-> 100 < List.length raw).
Proof.
  intros NE. destruct (classify_commit_total raw NE) as (cls & C).
  destruct (classify_commit_describes raw cls C) as ((info & G) & D & T).
  destruct (split_first _ D T) as (w & W).
  destruct (generate_suggestions_length raw cls info G
              (or_intror (ex_intro _ w W))) as (l & L & Short & Long).
  eexists. split.
  - unfold classify_message, classify_one. rewrite C. cbn [bind].
    rewrite L. cbn [bind]. reflexivity.
  - cbn [ClassificationResult.suggestions]. split; assumption.
Qed.

Lemma suggestion_length_checks_witness :
  exists r,
    classify_message [] (py "fix bug") = Ok r
    /\ (In suggest_details (ClassificationResult.suggestions r)
        <-> List.length (py "fix bug") < 10)
    /\ (In suggest_shorter (ClassificationResult.suggestions r)
        <-> 100 < List.length (py "fix bug")).
Proof.
  apply (suggestion_length_checks [] (py "fix bug")).
  vm_compute. discriminate.
Defined.

(** C7: [classify_batch] returns one record per message, in the order of
    the messages, and a total equal to their number; a message that is
    empty after trimming yields an error record that carries the message,
    and every other message of the batch is classified as it is alone. *)
Theorem batch_records clock messages :
  List.length (fst (classify_batch clock messages)) = List.length messages
  /\ snd (classify_batch clock messages) = List.length messages
  /\ forall j msg,
       nth_error messages j = Some msg ->
       (strip msg = [] ->
        nth_error (fst (classify_batch clock messages)) j
        = Some (Failed msg
                  (StrOf (HTTPException 400 (Text "Empty commit message")))))
       /\ (strip msg <> [] ->
           exists r,
             nth_error (fst (classify_batch clock messages)) j
             = Some (Classified r)
             /\ ClassificationResult.message r = msg
             /\ classify_one (clock j) msg = Ok r).
Proof.
  unfold classify_batch. cbn [fst snd].
  destruct (batch_loop_spec clock messages 0 []) as (L & _ & New).
  simpl in L, New. split; [exact L|]. split; [exact L|].
  intros j msg Hj. split.
  - intros E. rewrite (New j msg Hj).
    now rewrite (classify_one_Raise _ _ _ (classify_commit_empty msg E)).
  - intros NE. destruct (classify_commit_total msg NE) as (cls & C).
    destruct (classify_one_Ok (clock j) msg cls C) as (l & _ & O).
    eexists. rewrite (New j msg Hj), O. repeat split.
Qed.

(** A failing message in the middle of a batch does not stop it. *)
Example batch_with_empty_message :
  exists r1 r3,
    classify_batch (fun _ => []) [py "feat: add login"; py "   "; py "fix bug"]
    = ([Classified r1;
        Failed (py "   ")
          (StrOf (HTTPException 400 (Text "Empty commit message")));
        Classified r3], 3)
    /\ ClassificationResult.type r1 = "feat"%string
    /\ ClassificationResult.type r3 = "fix"%string.
Proof.
  eexists. eexists. split; [vm_compute; reflexivity|]. split; reflexivity.
Qed.

(** C8: on "feat: Added login" the description is "Added login"; its first
    word in lower case starts with "added" and its first character is
    upper-case, and the suggestions contain both "use imperative mood" and
    "start with lowercase letter". *)
Theorem added_login_suggestions :
  exists cls l w c t,
    classify_commit (py "feat: Added login") = Ok cls
    /\ generate_suggestions (py "feat: Added login") cls = Ok l
    /\ Cls.description cls = c :: t
    /\ getindex (split (Cls.description cls)) 0 = Ok w
    /\ startswith (lower w) (py "added") = true
    /\ isupper c = true
    /\ In suggest_imperative l
    /\ In suggest_lowercase l
    /\ l = [suggest_imperative; suggest_lowercase].
Proof.
  exists (Cls.mk "feat" None (py "Added login") 0.95%float),
    [suggest_imperative; suggest_lowercase], (py "Added"),
    "A"%char, (py "dded login").
  repeat split; try (vm_compute; reflexivity); simpl; tauto.
Qed.

(* ===================================================================== *)
(** ** Further properties of [backend/main.py] *)
(* ===================================================================== *)

Section Lookup.

Implicit Types (d : list (string * Info.t)) (k ty : string) (v info : Info.t).

Lemma getitem_In d k v : getitem d k = Ok v -> In (k, v) d.
Proof.
  induction d as [|[k' v'] d IH]; simpl; [discriminate|].
  destruct (String.eqb_spec k' k) as [-> | N].
  - intros E. apply Ok_inj in E. subst. now left.
  - intros E. right. now apply IH.
Qed.

Lemma getitem_missing d k :
  getitem d k = Raise (KeyError k) <-> ~ In k (map fst d).
Proof.
  induction d as [|[k' v'] d IH]; simpl.
  - split; auto.
  - destruct (String.eqb_spec k' k) as [-> | N].
    + split; [discriminate | intros H; exfalso; apply H; now left].
    + rewrite IH. intuition.
Qed.

Lemma getitem_cases d k :
  (exists v, getitem d k = Ok v) \/ getitem d k = Raise (KeyError k).
Proof.
  induction d as [|[k' v'] d IH]; simpl; auto.
  destruct (String.eqb k' k); eauto.
Qed.

Lemma category_ids_NoDup : NoDup category_ids.
Proof.
  cbv [category_ids COMMIT_TYPES map fst].
  repeat (constructor; [simpl; intuition discriminate|]). constructor.
Qed.

(** X1: a key of [COMMIT_TYPES] finds its own entry and nothing else, any
    other key raises [KeyError], and no key occurs twice. *)
Theorem commit_types_lookup k :
  (forall v, getitem COMMIT_TYPES k = Ok v <-> In (k, v) COMMIT_TYPES)
  /\ (getitem COMMIT_TYPES k = Raise (KeyError k) <-> ~ In k category_ids)
  /\ ((exists v, getitem COMMIT_TYPES k = Ok v) <-> In k category_ids)
  /\ NoDup category_ids.
Proof.
  split; [|split; [apply getitem_missing | split; [|apply category_ids_NoDup]]].
  - intros v. split; [apply getitem_In|]. intros I.
    exact (proj1 (proj1 (Forall_forall _ _) table_ok _ I)).
  - split.
    + intros (v & G). apply getitem_In in G.
      exact (entry_category _ G).
    + intros I. destruct (category_entry k I) as (info & _ & G & _). eauto.
Qed.

End Lookup.

Section Confidence.

Implicit Types (raw message s : str) (ty : string) (k n : nat).

(** The keyword formula, in decimals: 0.7, 0.8 and then 0.9. *)
Lemma keyword_confidence_ladder k :
  k <= 6 ->
  (if 0 <? k then keyword_confidence k else 0.5%float) = ladder k.
Proof.
  intros H.
  do 7 (destruct k as [|k]; [vm_compute; reflexivity|]). lia.
Qed.

Lemma capped_confidence_ladder n :
  n <= 3 -> PyFloat.max (capped_confidence n) 0.5 = ladder n.
Proof.
  intros H.
  do 4 (destruct n as [|n]; [vm_compute; reflexivity|]). lia.
Qed.

Lemma ladder_not_conventional k : ladder k <> 0.95%float.
Proof.
  intros E. assert (L : PrimFloat.leb (ladder k) 0.9 = true)
    by (do 3 (destruct k as [|k]; [vm_compute; reflexivity|]);
        vm_compute; reflexivity).
  exact (below_conventional _ L E).
Qed.

Lemma ladder_floor k : ladder k = 0.5%float <-> k = 0.
Proof.
  split; [|intros ->; reflexivity].
  intros E. destruct k as [|k]; [reflexivity|]. exfalso.
  assert (L : PrimFloat.ltb 0.5 (ladder (S k)) = true)
    by (do 2 (destruct k as [|k]; [vm_compute; reflexivity|]);
        vm_compute; reflexivity).
  rewrite E in L. vm_compute in L. discriminate.
Qed.

(** X2: [calculate_confidence] raises [KeyError] for a type that is not a
    key of the table; for a key it returns 0.95 when the pattern of that
    type matches the message and otherwise 0.5, 0.7, 0.8 or 0.9 according to
    whether none, one, two or more of the keywords of that type occur in
    the lower-cased message. *)
Theorem calculate_confidence_ladder message ty :
  (~ In ty category_ids ->
   calculate_confidence message ty = Raise (KeyError ty))
  /\ (forall info,
        In (ty, info) COMMIT_TYPES ->
        calculate_confidence message ty
        = Ok (if re_match (conventional ty) message then 0.95%float
              else ladder (keyword_count message info))).
Proof.
  split.
  - intros N. unfold calculate_confidence.
    now rewrite (proj2 (getitem_missing COMMIT_TYPES ty) N).
  - intros info I.
    pose proof (proj1 (Forall_forall _ _) table_ok _ I) as OK.
    destruct (re_match (conventional ty) message) eqn:M.
    + destruct OK as (G & P & _). cbn [fst snd] in *.
      unfold calculate_confidence. rewrite G. cbn [bind]. now rewrite P, M.
    + rewrite (calculate_confidence_keywords _ _ _ OK M).
      rewrite keyword_confidence_ladder; [reflexivity|].
      destruct OK as (_ & _ & L). cbn [snd] in L. unfold keyword_count.
      pose proof (keyword_matches_le (Info.keywords info) (lower message)).
      lia.
Qed.

(** X3: the confidence of a classification is 0.95 exactly when a
    conventional pattern matches the trimmed message; otherwise it is 0.5,
    0.7, 0.8 or 0.9 according to the highest number of keywords that a
    category has in the message (none, one, two, three or more). *)
Theorem classification_confidence_values raw :
  strip raw <> [] ->
  exists cls,
    classify_commit raw = Ok cls
    /\ (Cls.confidence cls = 0.95%float
        <-> re_match any_conventional (strip raw) = true)
    /\ (re_match any_conventional (strip raw) = false ->
        exists n,
          Cls.confidence cls = ladder n
          /\ Forall (fun e => capped (keyword_count (strip raw) (snd e)) <= n)
               COMMIT_TYPES
          /\ (n = 0
              \/ exists e, In e COMMIT_TYPES
                           /\ capped (keyword_count (strip raw) (snd e)) = n))
    /\ (Cls.confidence cls = 0.5%float
        <-> re_match any_conventional (strip raw) = false
            /\ forall e, In e COMMIT_TYPES ->
                         keyword_count (strip raw) (snd e) = 0).
Proof.
  intros NE. destruct (classify_commit_cases raw) as [(ty & I & M) | NM].
  - assert (A : re_match any_conventional (strip raw) = true)
      by (apply any_conventional_iff; eauto).
    eexists. split; [exact (classify_commit_conventional raw ty I M)|].
    cbn [Cls.confidence]. rewrite A. split; [|split].
    + split; reflexivity.
    + discriminate.
    + split; [|intros [F _]; discriminate].
      intros E. exfalso.
      apply (f_equal (fun x => PrimFloat.ltb 0.5 x)) in E.
      vm_compute in E. discriminate.
  - assert (A : re_match any_conventional (strip raw) = false)
      by (now apply no_conventional_any).
    eexists. split; [exact (classify_commit_fallback raw NE NM)|].
    cbn [Cls.confidence]. rewrite A.
    set (best := best_capped COMMIT_TYPES (strip raw) ("chore"%string, 0)).
    assert (B : snd best <= 3)
      by (apply (best_capped_le COMMIT_TYPES (strip raw) ("chore"%string, 0));
          simpl; lia).
    rewrite (capped_confidence_ladder _ B).
    assert (Max : Forall (fun e => capped (keyword_count (strip raw) (snd e))
                                   <= snd best) COMMIT_TYPES
                  /\ (snd best = 0
                      \/ exists e, In e COMMIT_TYPES
                           /\ capped (keyword_count (strip raw) (snd e))
                              = snd best)).
    { unfold best.
      destruct (best_capped_spec (strip raw) COMMIT_TYPES "chore"%string 0)
        as [[-> F] | (pre & ty & info & post & E & -> & Pos & Fp & Fq)];
        cbn [fst snd] in *.
      - split; auto.
      - split.
        + rewrite E. apply Forall_app. split.
          * eapply Forall_impl; [|exact Fp]. cbv beta. intros; lia.
          * constructor; [cbn [snd]; lia | exact Fq].
        + right. exists (ty, info). split; [rewrite E; apply in_elt | reflexivity]. }
    destruct Max as [Le Some_].
    split; [|split].
    + split; [intros E; exfalso; exact (ladder_not_conventional _ E)
             | discriminate].
    + intros _. exists (snd best). auto.
    + rewrite ladder_floor. split.
      * intros Z. split; [reflexivity|]. intros e Ie.
        pose proof (proj1 (Forall_forall _ _) Le e Ie) as H. cbv beta in H.
        unfold capped in H. lia.
      * intros [_ Z]. destruct Some_ as [-> | (e & Ie & Ee)]; [reflexivity|].
        rewrite (Z e Ie) in Ee. now rewrite <- Ee.
Qed.

Lemma classification_confidence_values_witness :
  exists cls,
    classify_commit (py "refactor and optimize the parser") = Ok cls
    /\ Cls.confidence cls = 0.8%float.
Proof.
  destruct (classification_confidence_values
              (py "refactor and optimize the parser")) as (cls & C & _).
  - vm_compute. discriminate.
  - exists cls. split; [exact C|].
    vm_compute in C. injection C as <-. reflexivity.
Defined.

End Confidence.

Section Whitespace.

Implicit Types (raw s t w p : str) (c : ascii).

Lemma lstrip_app_blank s w :
  forallb isspace w = true ->
  lstrip (s ++ w) = lstrip s ++ w
  \/ (lstrip s = [] /\ lstrip (s ++ w) = []).
Proof.
  intros W. induction s as [|c s IH]; simpl.
  - right. split; [reflexivity | now apply lstrip_nil].
  - destruct (isspace c); [exact IH | now left].
Qed.

Lemma lstrip_app_nonblank s t : lstrip s <> [] -> lstrip (s ++ t) = lstrip s ++ t.
Proof.
  induction s as [|c s IH]; simpl; [contradiction|].
  destruct (isspace c); auto.
Qed.

Lemma rstrip_app_nonblank p s : rstrip s <> [] -> rstrip (p ++ s) = p ++ rstrip s.
Proof.
  unfold rstrip. intros NE. rewrite rev_app_distr, lstrip_app_nonblank.
  - now rewrite rev_app_distr, rev_involutive.
  - intros E. apply NE. now rewrite E.
Qed.

Lemma strip_pad w1 s w2 :
  forallb isspace w1 = true -> forallb isspace w2 = true ->
  strip (w1 ++ s ++ w2) = strip s.
Proof.
  intros W1 W2. unfold strip. rewrite (lstrip_app_space w1 _ W1).
  destruct (lstrip_app_blank s w2 W2) as [-> | [E ->]].
  - now apply rstrip_app_space.
  - now rewrite E.
Qed.

Lemma lstrip_rstrip s : lstrip (rstrip s) = strip s.
Proof.
  destruct (strip_decompose s) as (w1 & w2 & E & W1 & W2).
  rewrite E at 1. rewrite app_assoc, (rstrip_app_space _ w2 W2).
  destruct (strip s) as [|c t] eqn:S.
  - rewrite app_nil_r. rewrite (proj2 (rstrip_nil w1) W1). reflexivity.
  - rewrite rstrip_app_nonblank.
    + rewrite (lstrip_app_space w1 _ W1), <- S, rstrip_id, lstrip_id; auto;
        apply strip_trimmed.
    + rewrite <- S, rstrip_id by apply strip_trimmed. rewrite S. discriminate.
Qed.

(** X4: whitespace around a message does not matter to [classify_commit]. *)
Theorem classify_ignores_outer_whitespace w1 s w2 :
  forallb isspace w1 = true -> forallb isspace w2 = true ->
  classify_commit (w1 ++ s ++ w2) = classify_commit s.
Proof.
  intros W1 W2. unfold classify_commit. now rewrite (strip_pad w1 s w2 W1 W2).
Qed.

Lemma classify_ignores_outer_whitespace_witness :
  classify_commit (py "   " ++ py "fix(api): resolve CORS issue" ++ py "  ")
  = classify_commit (py "fix(api): resolve CORS issue").
Proof.
  apply (classify_ignores_outer_whitespace (py "   ")
           (py "fix(api): resolve CORS issue") (py "  "));
    vm_compute; reflexivity.
Defined.

End Whitespace.

Section LowerCase.

Implicit Types (raw s t w : str) (c p : ascii) (ty : string).

Lemma lower_char_idem c : lower_char (lower_char c) = lower_char c.
Proof. destruct c as [[] [] [] [] [] [] [] []]; reflexivity. Qed.

Lemma isspace_lower c : isspace (lower_char c) = isspace c.
Proof. destruct c as [[] [] [] [] [] [] [] []]; reflexivity. Qed.

Lemma lower_idem s : lower (lower s) = lower s.
Proof.
  unfold lower. rewrite map_map. apply map_ext. apply lower_char_idem.
Qed.

Lemma lit_case_blind p : class_case_blind (Lit p).
Proof. intros c. simpl. now rewrite lower_char_idem. Qed.

Lemma space_case_blind : class_case_blind Space.
Proof. intros c. apply isspace_lower. Qed.

Lemma dot_case_blind : class_case_blind Dot.
Proof. intros c. destruct c as [[] [] [] [] [] [] [] []]; reflexivity. Qed.

Lemma notlit_case_blind p :
  p = ")"%char \/ p = ":"%char -> class_case_blind (NotLit p).
Proof.
  intros [-> | ->] c; destruct c as [[] [] [] [] [] [] [] []]; reflexivity.
Qed.

Lemma lits_case_blind w : case_blind (lits w).
Proof.
  induction w as [|c w IH]; simpl; auto. split; auto. apply lit_case_blind.
Qed.

Lemma conventional_case_blind ty : case_blind (conventional ty).
Proof.
  unfold conventional, header_tail, scope_re. simpl.
  repeat split;
    auto using lits_case_blind, lit_case_blind, space_case_blind,
      dot_case_blind, notlit_case_blind.
Qed.

Lemma star_lower cl (B : class_case_blind cl) s :
  forall k k' : str -> bool,
    (forall t, k' (lower t) = k t) ->
    star cl (lower s) k' = star cl s k.
Proof.
  induction s as [|c s IH]; intros k k' K; simpl.
  - exact (K []).
  - rewrite B, (IH k k' K). f_equal. exact (K (c :: s)).
Qed.

(** A case-blind pattern matches a message and its lower case alike. *)
Lemma run_lower r :
  case_blind r ->
  forall s (k k' : str -> bool),
    (forall t, k' (lower t) = k t) ->
    run r (lower s) k' = run r s k.
Proof.
  induction r as [|cl|r1 IH1 r2 IH2|r1 IH1 r2 IH2|r1 IH1|cl|cl];
    simpl; intros B s k k' K.
  - apply K.
  - destruct s as [|c s]; simpl; auto. now rewrite B, (K s).
  - destruct B as [B1 B2]. apply IH1; auto.
  - destruct B as [B1 B2]. now rewrite (IH1 B1 s k k' K), (IH2 B2 s k k' K).
  - now rewrite (IH1 B s k k' K), (K s).
  - now apply star_lower.
  - destruct s as [|c s]; simpl; auto.
    now rewrite B, (star_lower cl B s k k' K).
Qed.

Lemma re_match_lower r s :
  case_blind r -> re_match r (lower s) = re_match r s.
Proof. intros B. unfold re_match. now apply run_lower. Qed.

Lemma lstrip_lower s : lstrip (lower s) = lower (lstrip s).
Proof.
  induction s as [|c s IH]; simpl; auto.
  rewrite isspace_lower. now destruct (isspace c).
Qed.

Lemma rev_lower s : rev (lower s) = lower (rev s).
Proof. unfold lower. symmetry. apply map_rev. Qed.

Lemma strip_lower s : strip (lower s) = lower (strip s).
Proof.
  unfold strip, rstrip.
  now rewrite lstrip_lower, rev_lower, lstrip_lower, rev_lower.
Qed.

Lemma span_lower cl s :
  class_case_blind cl ->
  span cl (lower s) = (lower (fst (span cl s)), lower (snd (span cl s))).
Proof.
  intros B. induction s as [|c s IH]; [reflexivity|].
  change (lower (c :: s)) with (lower_char c :: lower s).
  cbn [span]. rewrite B, IH.
  destruct (accepts cl c); [|reflexivity].
  now destruct (span cl s).
Qed.

Lemma paren_group_at_lower s :
  paren_group_at (lower s) = option_map lower (paren_group_at s).
Proof.
  destruct s as [|c s]; [reflexivity|].
  change (lower (c :: s)) with (lower_char c :: lower s).
  unfold paren_group_at.
  rewrite (lit_case_blind "("%char c).
  destruct (accepts (Lit "("%char) c); [|reflexivity].
  rewrite span_lower by (apply notlit_case_blind; auto).
  destruct (span (NotLit ")"%char) s) as [a b]. cbn [fst snd].
  destruct a, b; reflexivity.
Qed.

Lemma extract_scope_lower s :
  extract_scope (lower s) = option_map lower (extract_scope s).
Proof.
  unfold extract_scope. induction s as [|c s IH]; [reflexivity|].
  change (lower (c :: s)) with (lower_char c :: lower s).
  cbn [search_paren_group].
  change (lower_char c :: lower s) with (lower (c :: s)).
  rewrite paren_group_at_lower.
  destruct (paren_group_at (c :: s)); simpl; auto.
Qed.

Lemma sub_header_lower s : sub_header (lower s) = lower (sub_header s).
Proof.
  unfold sub_header. rewrite span_lower by (apply notlit_case_blind; auto).
  destruct (span (NotLit ":"%char) s) as [a b]. cbn [fst snd].
  destruct a as [|x a]; [reflexivity|]. destruct b as [|y b]; [reflexivity|].
  change (lower (y :: b)) with (lower_char y :: lower b).
  change (lower (x :: a)) with (lower_char x :: lower a). cbv iota.
  rewrite span_lower by apply space_case_blind.
  reflexivity.
Qed.

Lemma calculate_confidence_lower s ty :
  calculate_confidence (lower s) ty = calculate_confidence s ty.
Proof.
  unfold calculate_confidence. rewrite lower_idem.
  destruct (getitem COMMIT_TYPES ty) as [info|e] eqn:G; [|reflexivity].
  cbn [bind]. apply getitem_In in G.
  destruct (proj1 (Forall_forall _ _) table_ok _ G) as (_ & P & _).
  cbn [fst snd] in P. rewrite P.
  now rewrite (re_match_lower _ s (conventional_case_blind ty)).
Qed.

Lemma conventional_pass_lower items s :
  Forall (fun e => case_blind (Info.pattern (snd e))) items ->
  conventional_pass items (lower s)
  = option_map lower_cls (conventional_pass items s).
Proof.
  induction 1 as [|[ty info] rest B _ IH]; [reflexivity|].
  cbn [conventional_pass]. cbn [snd] in B. rewrite (re_match_lower _ s B).
  destruct (re_match (Info.pattern info) s); [|exact IH].
  cbn [option_map]. unfold lower_cls. cbn [Cls.type Cls.scope Cls.description
    Cls.confidence]. now rewrite extract_scope_lower, sub_header_lower.
Qed.

Lemma keyword_pass_lower items s : forall best,
  keyword_pass items (lower s) (lower (lower s)) best
  = keyword_pass items s (lower s) best.
Proof.
  rewrite lower_idem.
  induction items as [|[ty info] rest IH]; intros best; [reflexivity|].
  cbn [keyword_pass]. rewrite calculate_confidence_lower.
  destruct (0 <? keyword_matches (Info.keywords info) (lower s)); [|apply IH].
  destruct (calculate_confidence s ty) as [x|e]; [|reflexivity].
  cbn [bind]. destruct (PrimFloat.ltb (snd best) x); apply IH.
Qed.

Lemma table_case_blind :
  Forall (fun e => case_blind (Info.pattern (snd e))) COMMIT_TYPES.
Proof.
  eapply Forall_impl; [|exact table_ok].
  intros [ty info] (_ & P & _). cbn [fst snd] in *. rewrite P.
  apply conventional_case_blind.
Qed.

(** X5: classification does not depend on the case of the message: the
    lower-cased message raises when the message does, and otherwise gets
    the same category and confidence, with the scope and the description
    in lower case. *)
Theorem classify_lower_case raw :
  classify_commit (lower raw)
  = match classify_commit raw with
    | Ok cls => Ok (lower_cls cls)
    | Raise e => Raise e
    end.
Proof.
  unfold classify_commit. rewrite strip_lower.
  destruct (strip raw) as [|c t]; [reflexivity|].
  change (lower (c :: t)) with (lower_char c :: lower t) at 1.
  cbv iota. change (lower_char c :: lower t) with (lower (c :: t)).
  rewrite (conventional_pass_lower _ _ table_case_blind).
  destruct (conventional_pass COMMIT_TYPES (c :: t)) as [cls|];
    [reflexivity|]. cbn [option_map].
  rewrite keyword_pass_lower.
  destruct (keyword_pass COMMIT_TYPES (c :: t) (lower (c :: t))
              ("chore"%string, 0.0%float)) as [best|e]; reflexivity.
Qed.

End LowerCase.

Section Headers.

Implicit Types (raw s t w n o g rest : str) (c : ascii) (ty : string).

(** The characters of a spelling of a category identifier are letters. *)
Lemma key_spelling_chars ty n c :
  In ty category_ids -> lower n = lower (py ty) -> In c n ->
  c <> "("%char /\ c <> ":"%char /\ isspace c = false.
Proof.
  intros I E C.
  assert (L : forall x, In x (lower (py ty)) ->
                x <> "("%char /\ x <> ":"%char /\ isspace x = false).
  { cbv [category_ids COMMIT_TYPES map fst] in I.
    repeat (destruct I as [<- | I]); try contradiction;
      intros x Hx; vm_compute in Hx;
      repeat (destruct Hx as [<- | Hx]); try contradiction;
      repeat split; (discriminate || reflexivity). }
  apply (in_map lower_char) in C. fold (lower n) in C. rewrite E in C.
  destruct (L _ C) as (P & Q & S). rewrite isspace_lower in S.
  repeat split; auto; intros ->; [apply P | apply Q]; reflexivity.
Qed.

Lemma search_skip_nonparen p s :
  ~ In "("%char p -> search_paren_group (p ++ s) = search_paren_group s.
Proof.
  induction p as [|c p IH]; [reflexivity|]. intros N.
  change ((c :: p) ++ s) with (c :: p ++ s). cbn [search_paren_group].
  unfold paren_group_at at 1. rewrite lit_uncased by auto.
  destruct (Ascii.eqb_spec c "("%char) as [-> | _].
  - exfalso. apply N. now left.
  - apply IH. intros I. apply N. now right.
Qed.

(** A spelling of the type, an optional scope, a colon and a text that
    does not end with whitespace match the pattern of the type. *)
Lemma conventional_match_intro ty n o rest :
  lower n = lower (py ty) ->
  (o = [] \/ exists g, o = "("%char :: g ++ [")"%char]
                       /\ g <> [] /\ ~ In ")"%char g) ->
  rest <> [] -> (forall t c, rest = t ++ [c] -> isspace c = false) ->
  re_match (conventional ty) ((n ++ o) ++ ":"%char :: rest) = true.
Proof.
  intros N O NE Last.
  destruct (span_spec Space rest) as (E & W & Hd).
  destruct (span Space rest) as [ws r]. cbn [fst snd] in *.
  destruct r as [|c r].
  { exfalso. rewrite app_nil_r in E. subst ws.
    destruct (last_exists rest NE) as (t & x & Ex).
    pose proof (Last t x Ex) as S. rewrite Ex, forallb_app in W.
    simpl in W. rewrite S, andb_false_r in W. discriminate. }
  simpl in Hd.
  assert (D : accepts Dot c = true)
    by (destruct c as [[] [] [] [] [] [] [] []]; try reflexivity;
        vm_compute in Hd; discriminate).
  apply re_match_spec.
  exists (n ++ o ++ [":"%char] ++ ws ++ [c]), r. split.
  - rewrite E. rewrite <- !app_assoc. reflexivity.
  - unfold conventional, header_tail.
    constructor; [now apply lits_lang|].
    constructor.
    + destruct O as [-> | (g & -> & G & Ng)]; [apply LOptNone|].
      apply LOptSome. apply scope_re_lang. eauto.
    + constructor; [constructor; reflexivity|].
      constructor; [now constructor | now constructor].
Qed.

(** The classification of a message made of a header and a text. *)
Lemma classify_header ty n o rest :
  In ty category_ids -> lower n = lower (py ty) ->
  (o = [] \/ exists g, o = "("%char :: g ++ [")"%char]
                       /\ g <> [] /\ ~ In ")"%char g) ->
  ~ In ":"%char o -> strip rest <> [] ->
  classify_commit ((n ++ o) ++ ":"%char :: rest)
  = Ok (Cls.mk ty (extract_scope (o ++ ":"%char :: rest)) (strip rest)
          0.95%float).
Proof.
  intros I N O No NE.
  destruct (key_spelling ty n I N) as [Nn Nc].
  assert (R : rstrip rest <> []).
  { intros E. apply NE. rewrite <- lstrip_rstrip, E. reflexivity. }
  assert (S : strip ((n ++ o) ++ ":"%char :: rest)
              = (n ++ o) ++ ":"%char :: rstrip rest).
  { unfold strip. rewrite lstrip_id.
    - change (":"%char :: rest) with ([":"%char] ++ rest).
      rewrite app_assoc, rstrip_app_nonblank by exact R.
      now rewrite <- app_assoc.
    - intros c t E. destruct n as [|x n]; [contradiction|].
      simpl in E. injection E as <- _.
      apply (key_spelling_chars ty (x :: n) x I N). now left. }
  assert (M : re_match (conventional ty) ((n ++ o) ++ ":"%char :: rstrip rest)
              = true).
  { apply conventional_match_intro; auto. intros t c. apply rstrip_last. }
  rewrite <- S in M. rewrite (classify_commit_conventional _ ty I M).
  rewrite extract_scope_strip. rewrite S.
  rewrite sub_header_colon, lstrip_rstrip.
  - unfold extract_scope. rewrite <- app_assoc.
    rewrite search_skip_nonparen; [reflexivity|].
    intros P. destruct (key_spelling_chars ty n _ I N P) as [Q _].
    now apply Q.
  - intros E. apply app_eq_nil in E as [E _]. contradiction.
  - intros P. apply in_app_or in P as [P | P]; contradiction.
Qed.

(** X6: a message that spells a category in any case, then a scope in
    parentheses, a colon and a text that is not blank is classified as that
    category with that scope, the stripped text as description and
    confidence 0.95. *)
Theorem classify_with_scope ty n g rest :
  In ty category_ids -> lower n = lower (py ty) ->
  g <> [] -> ~ In ")"%char g -> ~ In ":"%char g ->
  strip rest <> [] ->
  classify_commit (n ++ "("%char :: g ++ ")"%char :: ":"%char :: rest)
  = Ok (Cls.mk ty (Some g) (strip rest) 0.95%float).
Proof.
  intros I N G Np Nc NE.
  assert (E : n ++ "("%char :: g ++ ")"%char :: ":"%char :: rest
              = (n ++ "("%char :: g ++ [")"%char]) ++ ":"%char :: rest).
  { rewrite <- !app_assoc. simpl. now rewrite <- app_assoc. }
  rewrite E, (classify_header ty n ("("%char :: g ++ [")"%char]) rest);
    auto.
  - do 2 f_equal. unfold extract_scope.
    assert (P : paren_group_at
                  (("("%char :: g ++ [")"%char]) ++ ":"%char :: rest)
                = Some g).
    { apply paren_group_at_Some. exists (":"%char :: rest).
      repeat split; auto. simpl. now rewrite <- app_assoc. }
    change (("("%char :: g ++ [")"%char]) ++ ":"%char :: rest)
      with ("("%char :: (g ++ [")"%char]) ++ ":"%char :: rest) in *.
    cbn [search_paren_group]. now rewrite P.
  - right. exists g. auto.
  - simpl. intros [H | H]; [discriminate|].
    apply in_app_or in H as [H | [H | []]]; [contradiction | discriminate].
Qed.

Lemma classify_with_scope_witness :
  classify_commit
    (py "Fix" ++ "("%char :: py "api" ++ ")"%char :: ":"%char
       :: py " resolve CORS issue ")
  = Ok (Cls.mk "fix" (Some (py "api")) (strip (py " resolve CORS issue "))
          0.95%float).
Proof.
  apply (classify_with_scope "fix" (py "Fix") (py "api")
           (py " resolve CORS issue ")).
  - vm_compute. tauto.
  - vm_compute. reflexivity.
  - vm_compute. discriminate.
  - vm_compute. intuition discriminate.
  - vm_compute. intuition discriminate.
  - vm_compute. discriminate.
Defined.

(** X7: a message that spells a category in any case, then a colon and a
    text that is not blank is classified as that category with the stripped
    text as description and confidence 0.95; its scope is the first
    parenthesised group of the text, if the text has one. *)
Theorem classify_without_scope ty n rest :
  In ty category_ids -> lower n = lower (py ty) ->
  strip rest <> [] ->
  classify_commit (n ++ ":"%char :: rest)
  = Ok (Cls.mk ty (extract_scope rest) (strip rest) 0.95%float)
    /\ first_paren_group rest (extract_scope rest).
Proof.
  intros I N NE. split; [|apply extract_scope_first].
  rewrite <- (app_nil_r n) at 1.
  rewrite (classify_header ty n [] rest I N (or_introl eq_refl)
             (fun H => H) NE).
  reflexivity.
Qed.

Lemma classify_without_scope_witness :
  classify_commit (py "DOCS" ++ ":"%char :: py " describe (new) flags")
  = Ok (Cls.mk "docs" (extract_scope (py " describe (new) flags"))
          (strip (py " describe (new) flags")) 0.95%float)
    /\ first_paren_group (py " describe (new) flags")
         (extract_scope (py " describe (new) flags")).
Proof.
  apply (classify_without_scope "docs" (py "DOCS")
           (py " describe (new) flags")).
  - vm_compute. tauto.
  - vm_compute. reflexivity.
  - vm_compute. discriminate.
Defined.

(** X8: the description is a suffix of the trimmed message; it is the
    whole trimmed message exactly when no conventional pattern matches. *)
Theorem description_is_suffix raw :
  strip raw <> [] ->
  exists cls pre,
    classify_commit raw = Ok cls
    /\ strip raw = pre ++ Cls.description cls
    /\ (pre = [] <-> re_match any_conventional (strip raw) = false).
Proof.
  intros NE. destruct (classify_commit_cases raw) as [(ty & I & M) | NM].
  - assert (A : re_match any_conventional (strip raw) = true)
      by (apply any_conventional_iff; eauto).
    destruct (conventional_description ty (strip raw) I (strip_trimmed raw) M)
      as (a & b & E & _ & Na & Nb & D & _).
    destruct (trimmed_suffix (strip raw) (a ++ [":"%char]) b
                (strip_trimmed raw)) as (_ & _ & Sb); auto.
    { now rewrite <- app_assoc. }
    destruct (lstrip_space_prefix b) as (w & Eb & _).
    exists (Cls.mk ty (extract_scope (strip raw)) (sub_header (strip raw))
              0.95%float), (a ++ ":"%char :: w).
    split; [exact (classify_commit_conventional raw ty I M)|].
    cbn [Cls.description]. rewrite D, Sb, A. split.
    + rewrite <- app_assoc. simpl. rewrite <- Eb. exact E.
    + split; [|discriminate]. intros Z.
      apply app_eq_nil in Z as [_ Z]. discriminate.
  - assert (A : re_match any_conventional (strip raw) = false)
      by (now apply no_conventional_any).
    eexists. exists []. split; [exact (classify_commit_fallback raw NE NM)|].
    cbn [Cls.description]. rewrite A. repeat split; reflexivity.
Qed.

Lemma description_is_suffix_witness :
  exists cls pre,
    classify_commit (py " feat(ui):  add  dark mode ") = Ok cls
    /\ strip (py " feat(ui):  add  dark mode ") = pre ++ Cls.description cls
    /\ (pre = []
        <-> re_match any_conventional (strip (py " feat(ui):  add  dark mode "))
            = false).
Proof.
  apply (description_is_suffix (py " feat(ui):  add  dark mode ")).
  vm_compute. discriminate.
Defined.

End Headers.

Section MoreSuggestions.

Implicit Types (raw message s : str) (ty : string) (cls : Cls.t).

Lemma split_from_blank s : forallb isspace s = true -> split_from s [] = [].
Proof.
  induction s as [|c s IH]; simpl; auto.
  intros F. apply andb_prop in F as [-> F]. auto.
Qed.

Lemma split_from_nonblank s :
  forallb isspace s = false -> split_from s [] <> [].
Proof.
  induction s as [|c s IH]; simpl; [discriminate|].
  destruct (isspace c); simpl; auto.
  intros _. apply split_from_word. discriminate.
Qed.

Lemma suggest_format_neq_more ty s :
  suggest_format ty s <> suggest_imperative
  /\ suggest_format ty s <> suggest_lowercase
  /\ suggest_imperative <> suggest_lowercase.
Proof. repeat split; intros E; vm_compute in E; discriminate. Qed.

(** X9: [generate_suggestions] raises [KeyError] when the type of the
    classification is not a key of the table, and [IndexError] when the
    type is a key but the description is made of whitespace only; it
    returns a list in every other case. *)
Theorem generate_suggestions_errors message cls :
  (~ In (Cls.type cls) category_ids ->
   generate_suggestions message cls = Raise (KeyError (Cls.type cls)))
  /\ (In (Cls.type cls) category_ids ->
      Cls.description cls <> [] ->
      forallb isspace (Cls.description cls) = true ->
      generate_suggestions message cls = Raise IndexError)
  /\ (In (Cls.type cls) category_ids ->
      Cls.description cls = []
      \/ forallb isspace (Cls.description cls) = false ->
      exists l, generate_suggestions message cls = Ok l).
Proof.
  split; [|split].
  - intros N. unfold generate_suggestions.
    now rewrite (proj2 (getitem_missing COMMIT_TYPES _) N).
  - intros I NE B. destruct (category_entry _ I) as (info & _ & G & _).
    cbn [fst snd] in G. unfold generate_suggestions. rewrite G. cbn [bind].
    destruct (Cls.description cls) as [|c t] eqn:D; [contradiction|].
    unfold split, getindex. now rewrite (split_from_blank _ B).
  - intros I D. destruct (category_entry _ I) as (info & _ & G & _).
    cbn [fst snd] in G.
    destruct (generate_suggestions_length message cls info G) as (l & L & _);
      eauto.
    destruct D as [D | D]; [now left | right].
    unfold split, getindex.
    pose proof (split_from_nonblank _ D) as NE.
    destruct (split_from (Cls.description cls) []) as [|w ws];
      [contradiction | simpl; eauto].
Qed.

(** When each of the last three suggestions is made, and how many
    suggestions there can be. *)
Lemma generate_suggestions_members message cls info w :
  getitem COMMIT_TYPES (Cls.type cls) = Ok info ->
  Cls.description cls <> [] ->
  getindex (split (Cls.description cls)) 0 = Ok w ->
  exists l,
    generate_suggestions message cls = Ok l
    /\ (In (suggest_format (Cls.type cls) (Cls.description cls)) l
        <-> re_match (Info.pattern info) message = false)
    /\ (In suggest_imperative l
        <-> existsb (fun ind => startswith (lower w) ind)
              past_tense_indicators = true)
    /\ (In suggest_lowercase l
        <-> exists c t, Cls.description cls = c :: t /\ isupper c = true)
    /\ NoDup l /\ List.length l <= 4.
Proof.
  intros G NE W. unfold generate_suggestions. rewrite G. cbn [bind].
  destruct (suggest_format_neq (Cls.type cls) (Cls.description cls)) as [F1 F2].
  destruct (suggest_format_neq_more (Cls.type cls) (Cls.description cls))
    as (F3 & F4 & D6).
  destruct suggest_distinct as (D1 & D2 & D3 & D4 & D5).
  destruct (Cls.description cls) as [|c t] eqn:D; [contradiction|].
  rewrite W. cbn [bind].
  assert (Up : (exists c0 t0, c :: t = c0 :: t0 /\ isupper c0 = true)
               <-> isupper c = true).
  { split; [intros (c0 & t0 & E & U); now injection E as -> _ | eauto]. }
  set (fmt := suggest_format (Cls.type cls) (c :: t)) in *.
  eexists. split; [reflexivity|].
  rewrite Up. clear Up.
  destruct (re_match (Info.pattern info) message);
    destruct (List.length message <? 10) eqn:Short;
    destruct (100 <? List.length message) eqn:Long;
    try (apply Nat.ltb_lt in Short; apply Nat.ltb_lt in Long; lia);
    destruct (existsb (fun ind => startswith (lower w) ind)
                past_tense_indicators);
    destruct (isupper c);
    cbn [negb app];
    (split; [cbn [In]; intuition congruence|]);
    (split; [cbn [In]; intuition congruence|]);
    (split; [cbn [In]; intuition congruence|]);
    (split; [repeat (constructor; [cbn [In]; intuition congruence|]);
             constructor
            | simpl; lia]).
Qed.

(** Every message that is not empty after trimming goes through both
    functions of the endpoint. *)
Lemma classify_message_Ok now raw :
  strip raw <> [] ->
  exists cls info w l,
    classify_commit raw = Ok cls
    /\ In (Cls.type cls) category_ids
    /\ getitem COMMIT_TYPES (Cls.type cls) = Ok info
    /\ Info.pattern info = conventional (Cls.type cls)
    /\ Cls.description cls <> []
    /\ getindex (split (Cls.description cls)) 0 = Ok w
    /\ generate_suggestions raw cls = Ok l
    /\ classify_message now raw
       = Ok (ClassificationResult.mk raw (Cls.type cls) (Cls.scope cls)
               (Cls.description cls) (Cls.confidence cls) now l).
Proof.
  intros NE. destruct (classify_commit_total raw NE) as (cls & C).
  destruct (classify_commit_describes raw cls C) as ((info & G) & D & T).
  destruct (split_first _ D T) as (w & W).
  destruct (classify_one_Ok now raw cls C) as (l & L & O).
  pose proof (getitem_In _ _ _ G) as I.
  destruct (proj1 (Forall_forall _ _) table_ok _ I) as (_ & P & _).
  exists cls, info, w, l. repeat split; auto.
  - exact (entry_category _ I).
  - unfold classify_message. now rewrite O.
Qed.

(** X10: for a message that is not empty after trimming, the suggestions
    contain the reformatting one exactly when the message as sent does not
    match the pattern of the category found, the imperative-mood one
    exactly when the first word of the description, in lower case, starts
    with a past-tense indicator, and the lowercase one exactly when the
    description starts with an upper-case character. *)
Theorem suggestion_conditions now raw :
  strip raw <> [] ->
  exists r,
    classify_message now raw = Ok r
    /\ (In (suggest_format (ClassificationResult.type r)
              (ClassificationResult.description r))
           (ClassificationResult.suggestions r)
        <-> re_match (conventional (ClassificationResult.type r)) raw = false)
    /\ (In suggest_imperative (ClassificationResult.suggestions r)
        <-> exists w,
              getindex (split (ClassificationResult.description r)) 0 = Ok w
              /\ existsb (fun ind => startswith (lower w) ind)
                   past_tense_indicators = true)
    /\ (In suggest_lowercase (ClassificationResult.suggestions r)
        <-> exists c t, ClassificationResult.description r = c :: t
                        /\ isupper c = true).
Proof.
  intros NE.
  destruct (classify_message_Ok now raw NE)
    as (cls & info & w & l & C & I & G & P & D & W & L & M).
  destruct (generate_suggestions_members raw cls info w G D W)
    as (l' & L' & Fmt & Imp & Low & _).
  rewrite L in L'. apply Ok_inj in L'. subst l'.
  eexists. split; [exact M|].
  cbn [ClassificationResult.type ClassificationResult.description
       ClassificationResult.suggestions].
  rewrite <- P. split; [exact Fmt|]. split; [|exact Low].
  rewrite Imp. split.
  - intros E. eauto.
  - intros (w' & W' & E). rewrite W in W'. apply Ok_inj in W'. now subst.
Qed.

Lemma suggestion_conditions_witness :
  exists r,
    classify_message [] (py "Updated the docs") = Ok r
    /\ In suggest_imperative (ClassificationResult.suggestions r)
    /\ In suggest_lowercase (ClassificationResult.suggestions r).
Proof.
  destruct (suggestion_conditions [] (py "Updated the docs"))
    as (r & M & _ & Imp & Low).
  - vm_compute. discriminate.
  - exists r. split; [exact M|].
    vm_compute in M. injection M as <-. simpl. tauto.
Defined.

(** X11: [generate_suggestions] never returns more than four suggestions
    and never the same suggestion twice. *)
Theorem suggestions_bounded message cls l :
  generate_suggestions message cls = Ok l ->
  NoDup l /\ List.length l <= 4.
Proof.
  intros L.
  destruct (getitem_cases COMMIT_TYPES (Cls.type cls)) as [(info & G) | G].
  2:{ unfold generate_suggestions in L. rewrite G in L. discriminate. }
  destruct (Cls.description cls) as [|c t] eqn:D.
  - unfold generate_suggestions in L. rewrite G, D in L. cbn [bind] in L.
    apply Ok_inj in L. subst l.
    destruct (suggest_format_neq (Cls.type cls) []) as [F1 F2].
    destruct suggest_distinct as (D1 & _).
    destruct (re_match (Info.pattern info) message);
      destruct (List.length message <? 10) eqn:Short;
      destruct (100 <? List.length message) eqn:Long;
      try (apply Nat.ltb_lt in Short; apply Nat.ltb_lt in Long; lia);
      cbn [negb app existsb startswith past_tense_indicators py
           list_ascii_of_string orb];
      (split; [repeat (constructor; [cbn [In]; intuition congruence|]);
               constructor
              | simpl; lia]).
  - destruct (getindex (split (Cls.description cls)) 0) as [w|e] eqn:W.
    + destruct (generate_suggestions_members message cls info w G)
        as (l' & L' & _ & _ & _ & N & Len); auto.
      { rewrite D. discriminate. }
      rewrite L in L'. apply Ok_inj in L'. now subst.
    + unfold generate_suggestions in L. rewrite G, D in L. cbn [bind] in L.
      rewrite <- D, W in L. discriminate.
Qed.

Lemma suggestions_bounded_witness :
  NoDup [suggest_format "chore" (py "Added x"); suggest_details;
         suggest_imperative; suggest_lowercase]
  /\ List.length [suggest_format "chore" (py "Added x"); suggest_details;
                  suggest_imperative; suggest_lowercase] <= 4.
Proof.
  apply (suggestions_bounded (py "Added x")
           (Cls.mk "chore" None (py "Added x") 0.5%float)).
  vm_compute. reflexivity.
Defined.

End MoreSuggestions.

Section Endpoints.

Implicit Types (raw message s : str) (ty : string) (cls : Cls.t)
  (now : str) (clock : nat -> str).

(** No conventional pattern matches a message that starts with
    whitespace. *)
Lemma conventional_not_after_space ty c t :
  In ty category_ids -> isspace c = true ->
  re_match (conventional ty) (c :: t) = false.
Proof.
  intros I S. destruct (re_match (conventional ty) (c :: t)) eqn:M; auto.
  apply conventional_shape in M as (n & o & rest & E & N & _).
  destruct (key_spelling ty n I N) as [Nn _].
  destruct n as [|x n]; [contradiction|]. simpl in E. injection E as <- _.
  destruct (key_spelling_chars ty (c :: n) c I N) as (_ & _ & F);
    [now left | congruence].
Qed.

(** X12: for a message without whitespace around it, the reformatting
    suggestion is made exactly when no conventional pattern matches, that
    is, exactly when the confidence is not 0.95. *)
Theorem reformat_iff_fallback now raw :
  strip raw = raw -> raw <> [] ->
  exists r,
    classify_message now raw = Ok r
    /\ (In (suggest_format (ClassificationResult.type r)
              (ClassificationResult.description r))
           (ClassificationResult.suggestions r)
        <-> re_match any_conventional raw = false)
    /\ (In (suggest_format (ClassificationResult.type r)
              (ClassificationResult.description r))
           (ClassificationResult.suggestions r)
        <-> ClassificationResult.confidence r <> 0.95%float).
Proof.
  intros T NE. assert (NE' : strip raw <> []) by now rewrite T.
  destruct (classify_message_Ok now raw NE')
    as (cls & info & w & l & C & I & G & P & D & W & L & M).
  destruct (generate_suggestions_members raw cls info w G D W)
    as (l' & L' & Fmt & _).
  rewrite L in L'. apply Ok_inj in L'. subst l'.
  eexists. split; [exact M|].
  cbn [ClassificationResult.type ClassificationResult.description
       ClassificationResult.suggestions ClassificationResult.confidence].
  rewrite Fmt, P.
  destruct (classify_commit_cases raw) as [(ty & Ity & Mty) | NM].
  - rewrite (classify_commit_conventional raw ty Ity Mty) in C.
    apply Ok_inj in C. subst cls. cbn [Cls.type Cls.confidence].
    rewrite T in Mty. rewrite Mty.
    rewrite (proj2 (any_conventional_iff raw)) by eauto.
    split; split; try discriminate. intros H. now contradiction H.
  - rewrite (classify_commit_fallback raw NE' NM) in C.
    apply Ok_inj in C. subst cls. cbn [Cls.type Cls.confidence] in *.
    rewrite T in NM. rewrite (NM _ I).
    rewrite (proj2 (no_conventional_any raw) NM).
    rewrite capped_confidence_ladder.
    + split; split; auto. intros _. apply ladder_not_conventional.
    + apply (best_capped_le COMMIT_TYPES (strip raw) ("chore"%string, 0)).
      simpl. lia.
Qed.

Lemma reformat_iff_fallback_witness :
  exists r,
    classify_message [] (py "fixed the bug in payment module") = Ok r
    /\ In (suggest_format (ClassificationResult.type r)
             (ClassificationResult.description r))
          (ClassificationResult.suggestions r).
Proof.
  destruct (reformat_iff_fallback [] (py "fixed the bug in payment module"))
    as (r & M & Fmt & _).
  - vm_compute. reflexivity.
  - vm_compute. discriminate.
  - exists r. split; [exact M|]. apply Fmt. vm_compute. reflexivity.
Defined.

(** X13: a message that starts with whitespace always draws the
    reformatting suggestion, whatever its classification: the suggestion
    is decided on the message as sent, which no pattern matches. *)
Theorem reformat_after_leading_space now c t :
  isspace c = true -> strip (c :: t) <> [] ->
  exists r,
    classify_message now (c :: t) = Ok r
    /\ In (suggest_format (ClassificationResult.type r)
             (ClassificationResult.description r))
          (ClassificationResult.suggestions r).
Proof.
  intros S NE.
  destruct (classify_message_Ok now (c :: t) NE)
    as (cls & info & w & l & C & I & G & P & D & W & L & M).
  destruct (generate_suggestions_members (c :: t) cls info w G D W)
    as (l' & L' & Fmt & _).
  rewrite L in L'. apply Ok_inj in L'. subst l'.
  eexists. split; [exact M|].
  cbn [ClassificationResult.type ClassificationResult.description
       ClassificationResult.suggestions].
  apply Fmt. rewrite P. now apply conventional_not_after_space.
Qed.

Lemma reformat_after_leading_space_witness :
  exists r,
    classify_message [] (" "%char :: py "feat: add login") = Ok r
    /\ ClassificationResult.confidence r = 0.95%float
    /\ In (suggest_format (ClassificationResult.type r)
             (ClassificationResult.description r))
          (ClassificationResult.suggestions r).
Proof.
  destruct (reformat_after_leading_space [] " "%char (py "feat: add login"))
    as (r & M & Fmt).
  - vm_compute. reflexivity.
  - vm_compute. discriminate.
  - exists r. split; [exact M|]. split; [|exact Fmt].
    vm_compute in M. injection M as <-. reflexivity.
Defined.

(** X14: the single-message endpoint raises exactly when the message is
    empty after trimming, and what it raises always has status 500: the
    status 400 of [classify_commit] is caught and wrapped. *)
Theorem classify_message_errors now raw :
  (classify_message now raw
   = Raise (HTTPException 500
              (StrOf (HTTPException 400 (Text "Empty commit message"))))
   <-> strip raw = [])
  /\ ((exists r, classify_message now raw = Ok r) <-> strip raw <> [])
  /\ (forall e, classify_message now raw = Raise e ->
                exists d, e = HTTPException 500 d).
Proof.
  assert (Empty : strip raw = [] ->
            classify_message now raw
            = Raise (HTTPException 500
                       (StrOf (HTTPException 400 (Text "Empty commit message"))))).
  { intros E. unfold classify_message.
    now rewrite (classify_one_Raise _ _ _ (classify_commit_empty raw E)). }
  assert (Total : strip raw <> [] -> exists r, classify_message now raw = Ok r).
  { intros NE.
    destruct (classify_message_Ok now raw NE)
      as (cls & info & w & l & _ & _ & _ & _ & _ & _ & _ & M). eauto. }
  assert (Dec : strip raw = [] \/ strip raw <> [])
    by (destruct (strip raw); [left | right]; congruence).
  split; [|split].
  - split; auto. intros R. destruct Dec as [E | NE]; auto.
    destruct (Total NE) as (r & M). congruence.
  - split; auto. intros (r & M) E. rewrite (Empty E) in M. discriminate.
  - intros e R. unfold classify_message in R.
    destruct (classify_one now raw); [discriminate|].
    injection R as <-. eauto.
Qed.

(** X15: every example that [get_commit_types] lists is classified as the
    category it stands for, with no scope, confidence 0.95 and no
    suggestion; the entry repeats the description and the keywords of the
    table. *)
Theorem commit_type_examples now k ti :
  In (k, ti) get_commit_types ->
  (exists info,
     In (k, info) COMMIT_TYPES
     /\ TypeInfo.description ti = Info.description info
     /\ TypeInfo.keywords ti = Info.keywords info)
  /\ classify_message now (TypeInfo.example ti)
     = Ok (ClassificationResult.mk (TypeInfo.example ti) k None
             (py "example commit message") 0.95%float now []).
Proof.
  unfold get_commit_types. rewrite in_map_iff.
  intros ([k' info] & E & I). injection E as <- <-. split.
  - exists info. auto.
  - cbn [TypeInfo.example]. cbv [COMMIT_TYPES In] in I.
    repeat (destruct I as [I | I]); try contradiction;
      injection I as <- <-; vm_compute; reflexivity.
Qed.

Lemma commit_type_examples_witness :
  classify_message [] (py "perf: example commit message")
  = Ok (ClassificationResult.mk (py "perf: example commit message") "perf"
          None (py "example commit message") 0.95%float [] []).
Proof.
  apply (commit_type_examples [] "perf"
           (TypeInfo.mk "Performance improvements"
              [py "performance"; py "perf"; py "speed"; py "optimize";
               py "faster"]
              (py "perf: example commit message"))).
  vm_compute. tauto.
Defined.

(** X16: the supported types of [get_stats] are the keys of
    [get_commit_types], in the same order, and their number; they are
    exactly the categories that [classify_commit] returns. *)
Theorem supported_types_exact :
  Stats.supported_types get_stats = map fst get_commit_types
  /\ Stats.total_commit_types get_stats
     = List.length (Stats.supported_types get_stats)
  /\ (forall raw cls,
        classify_commit raw = Ok cls ->
        In (Cls.type cls) (Stats.supported_types get_stats))
  /\ (forall ty,
        In ty (Stats.supported_types get_stats) ->
        exists raw cls, classify_commit raw = Ok cls /\ Cls.type cls = ty).
Proof.
  split; [|split; [|split]].
  - reflexivity.
  - reflexivity.
  - intros raw cls C.
    destruct (classify_commit_describes raw cls C) as ((info & G) & _).
    apply getitem_In in G. exact (entry_category _ G).
  - intros ty I. change (In ty category_ids) in I.
    assert (NE : strip (py "x") <> []) by (vm_compute; discriminate).
    pose proof (classify_header ty (py ty) [] (py "x") I eq_refl
                  (or_introl eq_refl) (fun H => H) NE) as C.
    eexists. eexists. split; [exact C | reflexivity].
Qed.

Lemma batch_loop_shift clock k : forall messages i results,
  batch_loop clock (k + i) messages results
  = batch_loop (fun j => clock (k + j)) i messages results.
Proof.
  induction messages as [|m rest IH]; intros i results; [reflexivity|].
  cbn [batch_loop]. rewrite <- IH. now rewrite Nat.add_succ_r.
Qed.

Lemma batch_loop_app clock : forall m1 m2 i results,
  batch_loop clock i (m1 ++ m2) results
  = batch_loop clock (List.length m1 + i) m2 (batch_loop clock i m1 results).
Proof.
  induction m1 as [|m m1 IH]; intros m2 i results; [reflexivity|].
  cbn [app batch_loop List.length]. rewrite IH.
  now rewrite Nat.add_succ_r.
Qed.

Lemma batch_loop_results clock : forall messages i results,
  batch_loop clock i messages results
  = results ++ batch_loop clock i messages [].
Proof.
  induction messages as [|m rest IH]; intros i results.
  - simpl. now rewrite app_nil_r.
  - cbn [batch_loop].
    destruct (classify_one (clock i) m) as [r|e];
      rewrite IH, (IH _ ([] ++ _)); now rewrite <- app_assoc.
Qed.

(** X17: the batch of two lists of messages is the batch of the first
    followed by the batch of the second, read at the later clock, and the
    totals add up. *)
Theorem classify_batch_app clock m1 m2 :
  fst (classify_batch clock (m1 ++ m2))
  = fst (classify_batch clock m1)
    ++ fst (classify_batch (fun j => clock (List.length m1 + j)) m2)
  /\ snd (classify_batch clock (m1 ++ m2))
     = snd (classify_batch clock m1)
       + snd (classify_batch (fun j => clock (List.length m1 + j)) m2).
Proof.
  unfold classify_batch. cbn [fst snd].
  rewrite batch_loop_app, batch_loop_results, batch_loop_shift.
  split; [reflexivity | apply length_app].
Qed.

(** X18: a record of the batch is the answer of the single-message
    endpoint for that message: the same result when it succeeds, and the
    detail of its error when it fails. *)
Theorem batch_agrees_with_single clock messages j msg :
  nth_error messages j = Some msg ->
  (forall r,
     nth_error (fst (classify_batch clock messages)) j = Some (Classified r)
     <-> classify_message (clock j) msg = Ok r)
  /\ (forall e,
        nth_error (fst (classify_batch clock messages)) j
        = Some (Failed msg (StrOf e))
        <-> classify_message (clock j) msg
            = Raise (HTTPException 500 (StrOf e))).
Proof.
  intros Hj. unfold classify_batch, classify_message. cbn [fst].
  destruct (batch_loop_spec clock messages 0 []) as (_ & _ & New).
  simpl in New. rewrite (New j msg Hj).
  destruct (classify_one (clock j) msg) as [r0|e0]; split; intros x;
    split; intros E; try discriminate;
    injection E as <-; reflexivity.
Qed.

Lemma batch_agrees_with_single_witness :
  exists r,
    nth_error (fst (classify_batch (fun _ => []) [py "   "; py "fix bug"])) 1
    = Some (Classified r)
    /\ classify_message [] (py "fix bug") = Ok r.
Proof.
  destruct (batch_agrees_with_single (fun _ => []) [py "   "; py "fix bug"] 1
              (py "fix bug")) as [Same _].
  - reflexivity.
  - eexists. split; [vm_compute; reflexivity|].
    apply Same. vm_compute. reflexivity.
Defined.

End Endpoints.

Section Keywords.

Implicit Types (s t kw pre post message : str) (info : Info.t).

(** [kw in s]: [kw] occurs in [s]. *)
Lemma contains_spec s kw :
  contains s kw = true <-> exists pre post, s = pre ++ kw ++ post.
Proof.
  induction s as [|c s IH]; cbn [contains].
  - rewrite orb_false_r, startswith_spec. split.
    + intros (t & E). exists [], t. exact E.
    + intros (pre & post & E). symmetry in E.
      apply app_eq_nil in E as [-> E]. apply app_eq_nil in E as [-> ->].
      exists []. reflexivity.
  - rewrite orb_true_iff, startswith_spec, IH. split.
    + intros [(t & E) | (pre & post & E)].
      * exists [], t. exact E.
      * exists (c :: pre), post. simpl. now rewrite E.
    + intros ([|x pre] & post & E).
      * left. exists post. exact E.
      * right. simpl in E. injection E as _ E. eauto.
Qed.

Lemma filter_length_mono (A : Type) (f g : A -> bool) (l : list A) :
  (forall x, In x l -> f x = true -> g x = true) ->
  List.length (filter f l) <= List.length (filter g l).
Proof.
  induction l as [|a l IH]; intros H; simpl; auto.
  assert (IH' := IH (fun x I => H x (or_intror I))).
  pose proof (H a (or_introl eq_refl)) as Ha.
  destruct (f a), (g a); simpl; try lia; discriminate (Ha eq_refl).
Qed.

(** X19: a category has a keyword match exactly when one of its keywords
    occurs somewhere in the lower-cased message, also inside a longer
    word; text added before or after a message never lowers the number of
    matches, which never exceeds the number of keywords. *)
Theorem keyword_count_substring message info :
  (0 < keyword_count message info
   <-> exists kw pre post,
         In kw (Info.keywords info) /\ lower message = pre ++ kw ++ post)
  /\ (forall pre post,
        keyword_count message info
        <= keyword_count (pre ++ message ++ post) info)
  /\ keyword_count message info <= List.length (Info.keywords info).
Proof.
  unfold keyword_count, keyword_matches. split; [|split].
  - split.
    + intros Pos.
      destruct (filter (fun kw => contains (lower message) kw)
                  (Info.keywords info)) as [|kw l] eqn:F;
        [simpl in Pos; lia|].
      assert (I : In kw (filter (fun kw => contains (lower message) kw)
                           (Info.keywords info)))
        by (rewrite F; now left).
      apply filter_In in I as [I C]. apply contains_spec in C as (pre & post & E).
      eauto.
    + intros (kw & pre & post & I & E).
      assert (F : In kw (filter (fun kw => contains (lower message) kw)
                           (Info.keywords info))).
      { apply filter_In. split; auto. apply contains_spec. eauto. }
      destruct (filter (fun kw => contains (lower message) kw)
                  (Info.keywords info)); [contradiction | simpl; lia].
  - intros pre post. apply filter_length_mono. intros kw _ C.
    apply contains_spec in C as (a & b & E). apply contains_spec.
    exists (lower pre ++ a), (b ++ lower post).
    unfold lower in *. rewrite !map_app, E, <- !app_assoc. reflexivity.
  - apply filter_length_le.
Qed.

End Keywords.
